(** * Azahar common utilities: aligned allocation, core affinity, thread pool

    A shallow embedding of
    - [src/common/aligned_allocator.h]  ([AlignedAlloc], [PrefetchRange]),
    - [src/common/cpu_affinity.{h,cpp}] ([ResetCoreAffinity] and friends),
    - [src/common/thread_pool.{h,cpp}]  ([ThreadPool] and the process-wide
      accessor),
    followed by the properties established about them. *)

From Stdlib Require Import ZArith Lia Bool.
From stdpp Require Import base list strings.

(* ===================================================================== *)
(** ** aligned_allocator.h *)
(* ===================================================================== *)

Module AlignedAllocator.

Local Open Scope Z_scope.

Section SizeT.
(** Width of [size_t] in bits (64 on the arm64 and x86-64 targets). *)
Variable w : Z.

(** Unsigned arithmetic on [size_t] wraps modulo [2^w]. *)
Definition wrap (x : Z) : Z := x mod 2 ^ w.

(** [~x] on a [size_t]. *)
Definition size_not (x : Z) : Z := wrap (Z.lnot x).

(** [size_t aligned_size = (size + alignment - 1) & ~(alignment - 1);] *)
Definition aligned_size (size alignment : Z) : Z :=
  Z.land (wrap (wrap (size + alignment) - 1))
         (size_not (wrap (alignment - 1))).

(** What a call to [AlignedAlloc] comes to: a pointer, or [std::bad_alloc]
    thrown. *)
Inductive alloc_result : Type :=
| Allocated (ptr : Z)
| bad_alloc.

(** [AlignedAlloc(size, alignment)].  [underlying alignment n] is the
    platform allocator ([aligned_alloc], [_aligned_malloc] or
    [posix_memalign]); it answers with an address, [0] being [nullptr]. *)
Definition AlignedAlloc (underlying : Z -> Z -> Z) (size alignment : Z)
  : alloc_result :=
  let ptr := underlying alignment (aligned_size size alignment) in
  if ptr =? 0 then bad_alloc else Allocated ptr.

(** [AlignedAllocator<T, Alignment>::allocate(n)] with [sizeof_T = sizeof(T)]. *)
Definition allocate (underlying : Z -> Z -> Z) (sizeof_T Alignment n : Z)
  : alloc_result :=
  AlignedAlloc underlying (wrap (n * sizeof_T)) Alignment.
End SizeT.

(** The largest value of a 64-bit [size_t]. *)
Definition SIZE_MAX : Z := 2 ^ 64 - 1.

End AlignedAllocator.

(* ===================================================================== *)
(** ** aligned_allocator.h: the prefetch helpers *)
(* ===================================================================== *)

Module CachePrefetch.

Local Open Scope Z_scope.

(** The three bodies [Prefetch] can have, by compiler. *)
Inductive compiler : Type := GnuC | Msvc | OtherCompiler.

(** A hint given to the CPU: [__builtin_prefetch(addr, rw, locality)] or
    [_mm_prefetch(addr, _MM_HINT_T0)].  No memory is read or written. *)
Inductive hint : Type :=
| builtin_prefetch (addr rw locality : Z)
| mm_prefetch_T0 (addr : Z).

Definition hint_addr (h : hint) : Z :=
  match h with
  | builtin_prefetch a _ _ => a
  | mm_prefetch_T0 a => a
  end.

(** [Prefetch(addr, rw = 0, locality = 3)]: the hints it gives. *)
Definition Prefetch (c : compiler) (addr rw locality : Z) : list hint :=
  match c with
  | GnuC => [builtin_prefetch addr rw locality]
  | Msvc => [mm_prefetch_T0 addr]
  | OtherCompiler => []
  end.

(** [PrefetchCacheLine(addr)] *)
Definition PrefetchCacheLine (c : compiler) (addr : Z) : list hint :=
  Prefetch c addr 0 3.

Definition cache_line_size : Z := 64.

Section Pointers.
(** Width of a pointer in bits (64 on the arm64 and x86-64 targets). *)
Variable w : Z.

(** Addresses are [w]-bit values: what the compiled code computes for
    [ptr + n] is the sum modulo [2^w]. *)
Definition wrap_ptr (x : Z) : Z := x mod 2 ^ w.

(** [for (; ptr < end; ptr += cache_line_size) Prefetch(ptr);] for at most
    [fuel] iterations.  [None]: the loop has not ended by then. *)
Fixpoint PrefetchRange_loop (c : compiler) (fuel : nat) (ptr end_ : Z)
  : option (list hint) :=
  match fuel with
  | O => if ptr <? end_ then None else Some []
  | S fuel' =>
      if ptr <? end_
      then app (Prefetch c ptr 0 3)
             <$> PrefetchRange_loop c fuel' (wrap_ptr (ptr + cache_line_size))
                                    end_
      else Some []
  end.

(** [PrefetchRange(start, size)]: [end = ptr + size].  As long as [ptr]
    does not wrap around, every iteration brings it 64 bytes closer to
    [end], and [size] iterations are enough.  [None]: the loop takes more
    than [size] iterations, which needs [ptr += cache_line_size] to wrap
    around the address space. *)
Definition PrefetchRange (c : compiler) (start size : Z)
  : option (list hint) :=
  PrefetchRange_loop c (Z.to_nat size) start (wrap_ptr (start + size)).
End Pointers.

(** The addresses [start], [start + 64], ... of [n] cache lines. *)
Definition line_addresses (start : Z) (n : nat) : list Z :=
  (fun i : nat => start + cache_line_size * Z.of_nat i) <$> seq 0 n.

(** Number of cache lines the loop of [PrefetchRange] visits between [ptr]
    and [end_]. *)
Definition lines_between (ptr end_ : Z) : nat :=
  Z.to_nat ((end_ - ptr + 63) / 64).

End CachePrefetch.

(* ===================================================================== *)
(** ** cpu_affinity.h / cpu_affinity.cpp *)
(* ===================================================================== *)

Module CpuAffinity.

Local Open Scope Z_scope.

(** The two builds of the header: with [__ANDROID__] the functions are the
    ones of cpu_affinity.cpp, otherwise they are the empty inline stubs. *)
Inductive platform : Type := Android | OtherPlatform.

Inductive log_level : Type := LogDebug | LogInfo | LogWarning.

(** A [cpu_set_t] is a bit mask: bit [i] set means CPU [i] is allowed. *)
Definition cpu_set_t : Type := Z.

Definition CPU_ZERO : cpu_set_t := 0.

(** The operating system as the affinity functions see it.  None of it is
    code of the repository: [nprocessors_conf] is what
    [sysconf(_SC_NPROCESSORS_CONF)] answers (converted to [int]), [self] what
    [syscall(SYS_gettid)] answers, [affinity] the scheduling mask the kernel
    holds for each thread, [accepts] whether the kernel takes a mask for a
    thread, [available] the CPUs the process may currently run on, and
    [os_log] the logging sink. *)
Record OS : Type := {
  self : Z;
  nprocessors_conf : Z;
  available : cpu_set_t;
  affinity : Z -> cpu_set_t;
  accepts : Z -> cpu_set_t -> bool;
  os_log : list (log_level * string)
}.

Definition LOG (lvl : log_level) (msg : string) (os : OS) : OS :=
  {| self := self os; nprocessors_conf := nprocessors_conf os;
     available := available os; affinity := affinity os;
     accepts := accepts os; os_log := os_log os ++ [(lvl, msg)] |}.

(** [sched_setaffinity(tid, sizeof(cpuset), &cpuset)]: on success ([0]) the
    mask of [tid] is the one passed, on failure ([-1]) nothing changes. *)
Definition sched_setaffinity (tid : Z) (mask : cpu_set_t) (os : OS) : Z * OS :=
  if accepts os tid mask then
    (0, {| self := self os; nprocessors_conf := nprocessors_conf os;
           available := available os;
           affinity := fun t => if t =? tid then mask else affinity os t;
           accepts := accepts os; os_log := os_log os |})
  else (-1, os).

Section CpuSet.
(** Number of CPUs a [cpu_set_t] has room for (macro of <sched.h>). *)
Variable CPU_SETSIZE : Z.

(** [CPU_SET(cpu, &set)]: indices outside the set are ignored. *)
Definition CPU_SET (cpu : Z) (set : cpu_set_t) : cpu_set_t :=
  if (0 <=? cpu) && (cpu <? CPU_SETSIZE)
  then Z.lor set (Z.shiftl 1 cpu) else set.

(** [for (int i = lo; ...; i++) CPU_SET(i, &cpuset);] run [n] times. *)
Fixpoint set_loop (n : nat) (i : Z) (set : cpu_set_t) : cpu_set_t :=
  match n with
  | O => set
  | S n' => set_loop n' (i + 1) (CPU_SET i set)
  end.

(** [CPU_ZERO(&cpuset); for (int i = lo; i < hi; i++) CPU_SET(i, &cpuset);] *)
Definition cpus_from_to (lo hi : Z) : cpu_set_t :=
  set_loop (Z.to_nat (hi - lo)) lo CPU_ZERO.

(** The part the three functions share: apply the mask to the calling
    thread and log the outcome. *)
Definition apply_mask (cpuset : cpu_set_t) (ok_level : log_level)
           (ok_msg fail_msg : string) (os : OS) : OS :=
  let tid := self os in
  let '(result, os') := sched_setaffinity tid cpuset os in
  if negb (result =? 0) then LOG LogWarning fail_msg os'
  else LOG ok_level ok_msg os'.

Definition SetBigCoreAffinity (pf : platform) (os : OS) : OS :=
  match pf with
  | OtherPlatform => os
  | Android =>
      apply_mask (cpus_from_to 4 8) LogInfo
        "Thread {} pinned to big cores (4-7)"
        "Failed to set big core affinity for TID {}: error {}" os
  end.

Definition SetLittleCoreAffinity (pf : platform) (os : OS) : OS :=
  match pf with
  | OtherPlatform => os
  | Android =>
      apply_mask (cpus_from_to 0 4) LogDebug
        "Thread {} pinned to little cores (0-3)"
        "Failed to set little core affinity for TID {}: error {}" os
  end.

(** The mask [ResetCoreAffinity] builds. *)
Definition reset_mask (os : OS) : cpu_set_t :=
  let num_cores := nprocessors_conf os in
  cpus_from_to 0 num_cores.

Definition ResetCoreAffinity (pf : platform) (os : OS) : OS :=
  match pf with
  | OtherPlatform => os
  | Android =>
      apply_mask (reset_mask os) LogDebug
        "Thread {} affinity reset (all {} cores)"
        "Failed to reset core affinity for TID {}: error {}" os
  end.
End CpuSet.

(** [os'] differs from [os] at most in the mask of the calling thread and
    in the log, which has grown by [lines] lines: thread [t] has the mask it
    had, and what the kernel reports is the same. *)
Definition only_caller_changed (lines : nat) (t : Z) (os os' : OS) : Prop :=
  affinity os' t = affinity os t
  /\ self os' = self os
  /\ nprocessors_conf os' = nprocessors_conf os
  /\ available os' = available os
  /\ length (os_log os') = (length (os_log os) + lines)%nat.

End CpuAffinity.

(* ===================================================================== *)
(** ** thread_pool.h: class ThreadPool *)
(* ===================================================================== *)

Module Pool.

(** How a call of a bound callable ends. *)
Inductive outcome : Type :=
| Returned (v : Z)
| Threw (e : string).

(** What [std::future::get] throws when the packaged task was destroyed
    without having been called: [std::future_error] with the code
    [std::future_errc::broken_promise]. *)
Definition broken_promise : outcome :=
  Threw "std::future_error: broken_promise"%string.

Section WithEnv.
(** Whatever the submitted callables read and write. *)
Variable Env : Type.

(** [std::bind(f, args...)]: a nullary callable acting on the environment. *)
Definition callable : Type := Env -> Env * outcome.

(** An entry of [tasks]: the lambda passed to [tasks.emplace], which holds
    the [shared_ptr] to the packaged task and calls it.  [tid] stands for
    the identity of that packaged task (and of its shared state). *)
Record task : Type := { tid : nat; work : callable }.

(** Shared state between a packaged task and its [std::future]. *)
Inductive shared_state : Type :=
| Pending
| Ready (r : outcome).

(** Where a worker thread is in its lambda. *)
Inductive worker_pc : Type :=
| Waiting                (* at the top of the loop body: about to take the
                            lock and test the predicate of [condition.wait] *)
| Sleeping               (* blocked inside [condition.wait], lock released,
                            until it is notified *)
| Running (t : task)     (* holds a popped task, lock released, in [task()] *)
| Exited                 (* took the [return] of the loop *)
| Crashed (e : string).  (* an exception left the thread function *)

Record worker : Type := { pc : worker_pc; joinable : bool }.

(** Where the thread that destroys the pool is in [~ThreadPool]. *)
Inductive dtor_pc : Type :=
| Alive                  (* destructor not entered *)
| Stopping               (* [stop] set, lock released, [notify_all] not yet
                            called *)
| Joining (k : nat)      (* all notified, about to visit worker [k] *)
| Destroyed.             (* destructor returned, members destroyed *)

(** Where a client thread is in [WaitForTasks]. *)
Inductive wait_pc : Type :=
| NotWaiting
| Polling
| WaitReturned.

(** The pool ([workers], [tasks], [stop]; the mutex is implicit in the
    atomicity of the steps below, the condition variable is the set of
    workers that are [Sleeping]), the threads acting on it, the shared
    states of the futures and the environment of the callables.
    [notifying] counts the calls of [Enqueue] that have left their critical
    section and have not made their [notify_one] yet.  Six logs are kept as
    instrumentation: the callables in the order they were appended (the
    callable of task [id] is at index [id]); task ids in the order they
    were appended, popped and completed; the ids of the tasks destroyed
    with the queue without having been popped; worker indices in the order
    they were joined. *)
Record State : Type := {
  workers : list worker;
  tasks : list task;
  stop : bool;
  dtor : dtor_pc;
  waiter : wait_pc;
  notifying : nat;
  futures : list shared_state;
  env : Env;
  submitted : list callable;
  accepted : list nat;
  claimed : list nat;
  executed : list nat;
  discarded : list nat;
  joined : list nat
}.

(** [tasks.empty()] *)
Definition empty (q : list task) : bool :=
  match q with [] => true | _ :: _ => false end.

(** [explicit ThreadPool(size_t num_threads = 3) : stop(false)]: one thread
    per iteration of the loop, each entering the worker lambda.  Starting a
    thread is taken to succeed (a [std::thread] constructor that throws
    [std::system_error] is outside the model).  (On Android a worker first
    calls [SetBigCoreAffinity]; that call acts on the scheduler and the log
    only, see [CpuAffinity].) *)
Definition ThreadPool (num_threads : nat) (e : Env) : State :=
  {| workers := replicate num_threads {| pc := Waiting; joinable := true |};
     tasks := []; stop := false; dtor := Alive; waiter := NotWaiting;
     notifying := 0; futures := []; env := e; submitted := [];
     accepted := []; claimed := []; executed := []; discarded := [];
     joined := [] |}.

(** [size_t GetThreadCount() const] *)
Definition GetThreadCount (s : State) : nat := length (workers s).

(** The critical section of [Enqueue] on a pool that is not stopping:
    [tasks.emplace] of the lambda around the new packaged task, whose shared
    state starts out pending.  The call has its [notify_one] still to
    make. *)
Definition push_task (f : callable) (s : State) : State :=
  let id := length (futures s) in
  {| workers := workers s;
     tasks := tasks s ++ [{| tid := id; work := f |}];
     stop := stop s; dtor := dtor s; waiter := waiter s;
     notifying := S (notifying s);
     futures := futures s ++ [Pending]; env := env s;
     submitted := submitted s ++ [f];
     accepted := accepted s ++ [id];
     claimed := claimed s; executed := executed s;
     discarded := discarded s; joined := joined s |}.

(** [Enqueue(f, args...)] up to the end of its critical section.  The
    packaged task and its future are made first; under the lock either
    [stop] is set and [std::runtime_error] is thrown (unwinding releases the
    packaged task and the future again, and [notify_one] is not reached), or
    the lambda is appended to [tasks].  The result is the message of the
    exception, or the future (the id of its shared state).  The
    [condition.notify_one()] that follows the critical section is the step
    [notify_one] below. *)
Definition Enqueue (f : callable) (s : State) : State * (string + nat) :=
  if stop s then (s, inl "Enqueue on stopped ThreadPool"%string)
  else (push_task f s, inr (length (futures s))).

(** [std::packaged_task<R()>::operator()]: calls the stored callable and
    puts the value it returns, or the exception it throws, into the shared
    state.  The third component is the exception that leaves the call
    operator itself: there is none. *)
Definition packaged_task_call (f : callable) (e : Env)
  : Env * outcome * option string :=
  let '(e', r) := f e in (e', r, None).

Definition set_worker (i : nat) (p : worker_pc) (w : worker)
           (ws : list worker) : list worker :=
  <[i := {| pc := p; joinable := joinable w |}]> ws.

(** Worker [i] finds the predicate of [condition.wait] false: it releases
    the lock and blocks. *)
Definition worker_sleeps (i : nat) (w : worker) (s : State) : State :=
  {| workers := set_worker i Sleeping w (workers s);
     tasks := tasks s; stop := stop s; dtor := dtor s;
     waiter := waiter s; notifying := notifying s;
     futures := futures s; env := env s; submitted := submitted s;
     accepted := accepted s; claimed := claimed s;
     executed := executed s; discarded := discarded s;
     joined := joined s |}.

(** Worker [i] finds [stop && tasks.empty()] and returns. *)
Definition worker_exits (i : nat) (w : worker) (s : State) : State :=
  {| workers := set_worker i Exited w (workers s);
     tasks := tasks s; stop := stop s; dtor := dtor s;
     waiter := waiter s; notifying := notifying s;
     futures := futures s; env := env s; submitted := submitted s;
     accepted := accepted s; claimed := claimed s;
     executed := executed s; discarded := discarded s;
     joined := joined s |}.

(** Worker [i] moves [tasks.front()] into [task] and pops it, leaving [q]. *)
Definition worker_claims (i : nat) (w : worker) (t : task) (q : list task)
           (s : State) : State :=
  {| workers := set_worker i (Running t) w (workers s);
     tasks := q; stop := stop s; dtor := dtor s;
     waiter := waiter s; notifying := notifying s;
     futures := futures s; env := env s; submitted := submitted s;
     accepted := accepted s; claimed := claimed s ++ [tid t];
     executed := executed s; discarded := discarded s;
     joined := joined s |}.

(** Worker [i] makes the call [task()] and goes round the loop; an
    exception leaving the call would leave the thread function. *)
Definition worker_runs (i : nat) (w : worker) (t : task) (s : State)
  : State :=
  let '(e', r, escaped) := packaged_task_call (work t) (env s) in
  let p := match escaped with
           | None => Waiting
           | Some x => Crashed x
           end in
  {| workers := set_worker i p w (workers s);
     tasks := tasks s; stop := stop s; dtor := dtor s;
     waiter := waiter s; notifying := notifying s;
     futures := <[tid t := Ready r]> (futures s); env := e';
     submitted := submitted s;
     accepted := accepted s; claimed := claimed s;
     executed := executed s ++ [tid t]; discarded := discarded s;
     joined := joined s |}.

(** One atomic step of worker [i]: either the critical section of the loop
    body (lock, test the predicate, then block, return or pop) or the call
    [task()] made outside of it.  [None]: the worker cannot move by itself
    (blocked in [wait], or gone). *)
Definition worker_step (i : nat) (s : State) : option State :=
  match workers s !! i with
  | None => None
  | Some w =>
      match pc w with
      | Waiting =>
          (* condition.wait(lock, [this] { return stop || !tasks.empty(); }) *)
          if negb (stop s || negb (empty (tasks s)))
          then Some (worker_sleeps i w s)
          (* if (stop && tasks.empty()) return; *)
          else if stop s && empty (tasks s) then Some (worker_exits i w s)
          else
            (* task = std::move(tasks.front()); tasks.pop(); *)
            match tasks s with
            | [] => None
            | t :: q => Some (worker_claims i w t q s)
            end
      | Sleeping => None
      | Running t => Some (worker_runs i w t s)
      | Exited => None
      | Crashed _ => None
      end
  end.

(** Is the worker blocked on the condition variable? *)
Definition sleeping (w : worker) : bool :=
  match pc w with Sleeping => true | _ => false end.

(** Worker [i], blocked in [condition.wait], is woken: it will take the
    lock and test the predicate again.  [k] is what [notifying] becomes. *)
Definition worker_wakes (i : nat) (w : worker) (k : nat) (s : State)
  : State :=
  {| workers := set_worker i Waiting w (workers s);
     tasks := tasks s; stop := stop s; dtor := dtor s;
     waiter := waiter s; notifying := k;
     futures := futures s; env := env s; submitted := submitted s;
     accepted := accepted s; claimed := claimed s;
     executed := executed s; discarded := discarded s;
     joined := joined s |}.

Definition set_notifying (k : nat) (s : State) : State :=
  {| workers := workers s; tasks := tasks s; stop := stop s;
     dtor := dtor s; waiter := waiter s; notifying := k;
     futures := futures s; env := env s; submitted := submitted s;
     accepted := accepted s; claimed := claimed s;
     executed := executed s; discarded := discarded s;
     joined := joined s |}.

(** [condition.notify_one()] at the end of one of the calls of [Enqueue]
    that have it still to make.  If workers are blocked on the condition
    variable one of them is woken; [i] says which.  If none is, nothing
    happens.  [None]: no call of [Enqueue] is at that point, or worker [i]
    is not one that can be woken. *)
Definition notify_one (i : nat) (s : State) : option State :=
  match notifying s with
  | O => None
  | S k =>
      if existsb sleeping (workers s) then
        match workers s !! i with
        | Some w =>
            if sleeping w then Some (worker_wakes i w k s) else None
        | None => None
        end
      else Some (set_notifying k s)
  end.

(** [std::condition_variable::wait] may also return without any
    notification (a spurious wake-up); the loop inside
    [wait(lock, pred)] then tests the predicate again. *)
Definition spurious_wakeup (i : nat) (s : State) : option State :=
  match workers s !! i with
  | Some w =>
      if sleeping w then Some (worker_wakes i w (notifying s) s) else None
  | None => None
  end.

(** [~ThreadPool] sets [stop] under the lock. *)
Definition dtor_begins (s : State) : State :=
  {| workers := workers s; tasks := tasks s; stop := true;
     dtor := Stopping; waiter := waiter s; notifying := notifying s;
     futures := futures s; env := env s; submitted := submitted s;
     accepted := accepted s; claimed := claimed s;
     executed := executed s; discarded := discarded s;
     joined := joined s |}.

(** What [notify_all] does to a worker. *)
Definition wake (w : worker) : worker :=
  match pc w with
  | Sleeping => {| pc := Waiting; joinable := joinable w |}
  | _ => w
  end.

(** [condition.notify_all()]: every worker blocked on the condition
    variable is woken. *)
Definition dtor_notifies (s : State) : State :=
  {| workers := wake <$> workers s; tasks := tasks s; stop := stop s;
     dtor := Joining 0; waiter := waiter s; notifying := notifying s;
     futures := futures s; env := env s; submitted := submitted s;
     accepted := accepted s; claimed := claimed s;
     executed := executed s; discarded := discarded s;
     joined := joined s |}.

(** [worker.join()] on worker [k], which has returned. *)
Definition dtor_joins (k : nat) (s : State) : State :=
  {| workers := <[k := {| pc := Exited; joinable := false |}]> (workers s);
     tasks := tasks s; stop := stop s;
     dtor := Joining (S k); waiter := waiter s; notifying := notifying s;
     futures := futures s; env := env s; submitted := submitted s;
     accepted := accepted s; claimed := claimed s;
     executed := executed s; discarded := discarded s;
     joined := joined s ++ [k] |}.

Definition set_dtor (d : dtor_pc) (s : State) : State :=
  {| workers := workers s; tasks := tasks s; stop := stop s;
     dtor := d; waiter := waiter s; notifying := notifying s;
     futures := futures s; env := env s; submitted := submitted s;
     accepted := accepted s; claimed := claimed s;
     executed := executed s; discarded := discarded s;
     joined := joined s |}.

(** Is the task with id [id] in the queue [q]? *)
Definition queued (q : list task) (id : nat) : bool :=
  existsb (fun t => Nat.eqb (tid t) id) q.

(** [~packaged_task] on the packaged tasks the lambdas in [q] hold: a
    shared state that is not ready is made ready with [broken_promise]. *)
Definition abandon (q : list task) (id : nat) (st : shared_state)
  : shared_state :=
  if queued q id then
    match st with
    | Pending => Ready broken_promise
    | Ready r => Ready r
    end
  else st.

(** The loop over [workers] is done and the destructor returns; the
    members are destroyed, among them [tasks]: each lambda still in the
    queue is destroyed and with it the last [shared_ptr] to its packaged
    task (the one [Enqueue] held is gone since [Enqueue] returned), which
    was never called. *)
Definition dtor_ends (s : State) : State :=
  {| workers := workers s; tasks := []; stop := stop s;
     dtor := Destroyed; waiter := waiter s; notifying := notifying s;
     futures := imap (abandon (tasks s)) (futures s); env := env s;
     submitted := submitted s;
     accepted := accepted s; claimed := claimed s;
     executed := executed s;
     discarded := discarded s ++ (tid <$> tasks s);
     joined := joined s |}.

(** One step of [~ThreadPool]: setting [stop], [notify_all], one iteration
    of the loop over [workers], or leaving the loop and returning.  [join]
    blocks until the thread has returned. *)
Definition dtor_step (s : State) : option State :=
  match dtor s with
  | Alive => Some (dtor_begins s)
  | Stopping => Some (dtor_notifies s)
  | Joining k =>
      match workers s !! k with
      | None => Some (dtor_ends s)
      | Some w =>
          if joinable w then
            match pc w with
            | Exited => Some (dtor_joins k s)
            | _ => None
            end
          else Some (set_dtor (Joining (S k)) s)
      end
  | Destroyed => None
  end.

Definition set_waiter (p : wait_pc) (s : State) : State :=
  {| workers := workers s; tasks := tasks s; stop := stop s;
     dtor := dtor s; waiter := p; notifying := notifying s;
     futures := futures s; env := env s; submitted := submitted s;
     accepted := accepted s; claimed := claimed s;
     executed := executed s; discarded := discarded s;
     joined := joined s |}.

(** One step of a client in [WaitForTasks]: entering the function, or one
    iteration of its loop (lock, test [tasks.empty()], then [break] or
    unlock and yield). *)
Definition WaitForTasks_step (s : State) : option State :=
  match waiter s with
  | NotWaiting | WaitReturned => Some (set_waiter Polling s)
  | Polling =>
      if empty (tasks s) then Some (set_waiter WaitReturned s)
      else Some (set_waiter Polling s)
  end.

(** [std::future::get()] on the future with id [id]: the outcome once the
    shared state is ready ([Returned v]: [get] returns [v]; [Threw e]:
    [get] rethrows [e]); [None] while [get] would still block. *)
Definition future_get (id : nat) (s : State) : option outcome :=
  match futures s !! id with
  | Some (Ready r) => Some r
  | _ => None
  end.

(** What the threads around one pool can do next. *)
Inductive event : Type :=
| EvEnqueue (f : callable)   (* some thread calls [Enqueue] *)
| EvWorker (i : nat)         (* worker [i] takes its next step *)
| EvWait                     (* the client in [WaitForTasks] moves *)
| EvDtor                     (* the destroying thread moves *)
| EvNotifyOne (i : nat)      (* a call of [Enqueue] makes its [notify_one],
                                which reaches worker [i] *)
| EvSpurious (i : nat).      (* worker [i] wakes up without notification *)

Definition destroyed (s : State) : bool :=
  match dtor s with Destroyed => true | _ => false end.

(** The pool may only be used while it exists. *)
Definition step (ev : event) (s : State) : option State :=
  match ev with
  | EvEnqueue f => if destroyed s then None else Some (fst (Enqueue f s))
  | EvWorker i => worker_step i s
  | EvWait => if destroyed s then None else WaitForTasks_step s
  | EvDtor => dtor_step s
  | EvNotifyOne i => if destroyed s then None else notify_one i s
  | EvSpurious i => spurious_wakeup i s
  end.

(** A schedule is the order in which the threads move. *)
Fixpoint run (sched : list event) (s : State) : option State :=
  match sched with
  | [] => Some s
  | ev :: rest =>
      match step ev s with
      | Some s' => run rest s'
      | None => None
      end
  end.

(** States a pool constructed with [n] workers can get into. *)
Definition reachable (n : nat) (e : Env) (s : State) : Prop :=
  exists sched, run sched (ThreadPool n e) = Some s.

(** Events by which a blocked worker is woken by something else than the
    destructor. *)
Definition is_wakeup (ev : event) : bool :=
  match ev with
  | EvNotifyOne _ | EvSpurious _ => true
  | _ => false
  end.

(** A schedule under which a destructor that has just called [notify_all]
    gets to its end: each worker in turn finishes what it runs, empties the
    queue, returns, and is joined. *)
Fixpoint teardown_sched (i : nat) (ws : list worker) (qlen : nat)
  : list event :=
  match ws with
  | [] => [EvDtor]
  | w :: ws' =>
      (match pc w with Running _ => [EvWorker i] | _ => [] end)
        ++ concat (replicate qlen [EvWorker i; EvWorker i])
        ++ [EvWorker i; EvDtor]
        ++ teardown_sched (S i) ws' 0
  end.

(** *** What the callables did *)

(** Calling the callable submitted under [id] in the environment reached
    so far; its outcome is noted next to its id. *)
Definition replay_step (fs : list callable)
           (acc : Env * list (nat * outcome)) (id : nat)
  : Env * list (nat * outcome) :=
  match (fs !! id : option callable) with
  | Some f => (fst (f (fst acc)), snd acc ++ [(id, snd (f (fst acc)))])
  | None => acc
  end.

(** Calling the callables [fs] one after the other in the order [ids],
    starting in the environment [e]: the environment they leave and the
    outcome of each call. *)
Definition replay (fs : list callable) (ids : list nat) (e : Env)
  : Env * list (nat * outcome) :=
  fold_left (replay_step fs) ids (e, []).

(** What the calls made so far by the workers of a pool constructed in the
    environment [e] amount to: the callables handed to [Enqueue], called in
    the order in which the calls were completed. *)
Definition calls (e : Env) (s : State) : Env * list (nat * outcome) :=
  replay (submitted s) (executed s) e.

(** *** Invariants of the pool *)

(** A worker the destructor is done with. *)
Definition joined_worker : worker :=
  {| pc := Exited; joinable := false |}.

(** How far the destructor is, against the workers. *)
Definition dtor_inv (n : nat) (s : State) : Prop :=
  match dtor s with
  | Alive =>
      stop s = false /\ joined s = [] /\ discarded s = []
      /\ forall i w, workers s !! i = Some w -> joinable w = true
  | Stopping =>
      stop s = true /\ joined s = [] /\ discarded s = []
      /\ forall i w, workers s !! i = Some w -> joinable w = true
  | Joining k =>
      stop s = true /\ k <= n /\ joined s = seq 0 k /\ discarded s = []
      /\ forall i w, workers s !! i = Some w ->
                     (i < k -> w = joined_worker)
                     /\ (k <= i -> joinable w = true)
                     /\ pc w <> Sleeping
  | Destroyed =>
      stop s = true /\ joined s = seq 0 n /\ tasks s = []
      /\ (1 <= n -> discarded s = [])
      /\ forall i w, workers s !! i = Some w -> w = joined_worker
  end.

(** What a worker's position says about the pool. *)
Definition worker_ok (s : State) (w : worker) : Prop :=
  match pc w with
  | Crashed _ => False
  | Exited => stop s = true /\ tasks s = []
  | _ => True
  end.

Record pool_inv (n : nat) (s : State) : Prop := {
  inv_count : length (workers s) = n;
  inv_ids : accepted s = seq 0 (length (futures s));
  inv_fifo : accepted s = claimed s ++ (tid <$> tasks s) ++ discarded s;
  inv_running : forall i w t,
      workers s !! i = Some w -> pc w = Running t -> tid t ∈ claimed s;
  inv_claimed : forall id,
      id ∈ claimed s ->
      id ∈ executed s
      \/ exists i w t, workers s !! i = Some w /\ pc w = Running t
                       /\ tid t = id;
  inv_executed : forall id,
      id ∈ executed s ->
      id ∈ claimed s /\ exists r, futures s !! id = Some (Ready r);
  inv_workers : forall i w, workers s !! i = Some w -> worker_ok s w;
  inv_dtor : dtor_inv n s
}.

(** A worker that is neither blocked, nor gone, nor crashed. *)
Definition live (w : worker) : Prop :=
  joinable w = true /\ (pc w = Waiting \/ exists t, pc w = Running t).

(** *** More invariants *)

(** Tasks are run once: the log of completed tasks has no duplicate, a task
    a worker holds is not completed and is held by that worker alone, and a
    shared state is ready only if its task completed or was destroyed with
    the queue. *)
Record once_inv (s : State) : Prop := {
  once_executed : NoDup (executed s);
  once_running : forall i w t,
      workers s !! i = Some w -> pc w = Running t -> tid t ∉ executed s;
  once_single : forall i j w w' t t',
      workers s !! i = Some w -> pc w = Running t ->
      workers s !! j = Some w' -> pc w' = Running t' ->
      tid t = tid t' -> i = j;
  once_ready : forall id r,
      futures s !! id = Some (Ready r) ->
      id ∈ executed s \/ (id ∈ discarded s /\ r = broken_promise)
}.

(** The calls made are calls of the callables that were handed to
    [Enqueue]: a task in the queue or in the hands of a worker carries the
    callable submitted under its id, the environment is the one the calls
    made so far leave, and the future of each completed task holds the
    outcome of its call. *)
Record calls_inv (e : Env) (s : State) : Prop := {
  calls_length : length (submitted s) = length (futures s);
  calls_queued : forall t,
      t ∈ tasks s -> submitted s !! tid t = Some (work t);
  calls_running : forall i w t,
      workers s !! i = Some w -> pc w = Running t ->
      submitted s !! tid t = Some (work t);
  calls_env : env s = fst (calls e s);
  calls_ids : (snd (calls e s)).*1 = executed s;
  calls_futures : forall id r,
      (id, r) ∈ snd (calls e s) -> futures s !! id = Some (Ready r)
}.
End WithEnv.

Arguments tid {Env} _.
Arguments work {Env} _.
Arguments Waiting {Env}.
Arguments Sleeping {Env}.
Arguments Running {Env} _.
Arguments Exited {Env}.
Arguments Crashed {Env} _.
Arguments pc {Env} _.
Arguments joinable {Env} _.
Arguments workers {Env} _.
Arguments tasks {Env} _.
Arguments stop {Env} _.
Arguments dtor {Env} _.
Arguments waiter {Env} _.
Arguments notifying {Env} _.
Arguments futures {Env} _.
Arguments env {Env} _.
Arguments submitted {Env} _.
Arguments accepted {Env} _.
Arguments claimed {Env} _.
Arguments executed {Env} _.
Arguments discarded {Env} _.
Arguments joined {Env} _.
Arguments empty {Env} _.
Arguments ThreadPool {Env} _ _.
Arguments GetThreadCount {Env} _.
Arguments Enqueue {Env} _ _.
Arguments packaged_task_call {Env} _ _.
Arguments set_worker {Env} _ _ _ _.
Arguments worker_sleeps {Env} _ _ _.
Arguments worker_exits {Env} _ _ _.
Arguments worker_claims {Env} _ _ _ _ _.
Arguments worker_runs {Env} _ _ _ _.
Arguments worker_step {Env} _ _.
Arguments sleeping {Env} _.
Arguments worker_wakes {Env} _ _ _ _.
Arguments set_notifying {Env} _ _.
Arguments notify_one {Env} _ _.
Arguments spurious_wakeup {Env} _ _.
Arguments dtor_begins {Env} _.
Arguments wake {Env} _.
Arguments dtor_notifies {Env} _.
Arguments dtor_joins {Env} _ _.
Arguments set_dtor {Env} _ _.
Arguments queued {Env} _ _.
Arguments abandon {Env} _ _ _.
Arguments dtor_ends {Env} _.
Arguments push_task {Env} _ _.
Arguments dtor_step {Env} _.
Arguments set_waiter {Env} _ _.
Arguments WaitForTasks_step {Env} _.
Arguments future_get {Env} _ _.
Arguments EvEnqueue {Env} _.
Arguments EvWorker {Env} _.
Arguments EvWait {Env}.
Arguments EvDtor {Env}.
Arguments EvNotifyOne {Env} _.
Arguments EvSpurious {Env} _.
Arguments destroyed {Env} _.
Arguments step {Env} _ _.
Arguments run {Env} _ _.
Arguments reachable {Env} _ _ _.
Arguments is_wakeup {Env} _.
Arguments teardown_sched {Env} _ _ _.
Arguments replay_step {Env} _ _ _.
Arguments replay {Env} _ _ _.
Arguments calls {Env} _ _.
Arguments joined_worker {Env}.
Arguments dtor_inv {Env} _ _.
Arguments worker_ok {Env} _ _.
Arguments pool_inv {Env} _ _.
Arguments inv_count {Env} _ _ _.
Arguments inv_ids {Env} _ _ _.
Arguments inv_fifo {Env} _ _ _.
Arguments inv_running {Env} _ _ _ _ _ _ _ _.
Arguments inv_claimed {Env} _ _ _ _ _.
Arguments inv_executed {Env} _ _ _ _ _.
Arguments inv_workers {Env} _ _ _ _ _ _.
Arguments inv_dtor {Env} _ _ _.
Arguments live {Env} _.
Arguments once_inv {Env} _.
Arguments once_executed {Env} _ _.
Arguments once_running {Env} _ _ _ _ _ _ _.
Arguments once_single {Env} _ _ _ _ _ _ _ _ _ _ _ _ _.
Arguments once_ready {Env} _ _ _ _ _.
Arguments calls_inv {Env} _ _.
Arguments calls_length {Env} _ _ _.
Arguments calls_queued {Env} _ _ _ _ _.
Arguments calls_running {Env} _ _ _ _ _ _ _ _.
Arguments calls_env {Env} _ _ _.
Arguments calls_ids {Env} _ _ _.
Arguments calls_futures {Env} _ _ _ _ _ _.

End Pool.

(* ===================================================================== *)
(** ** thread_pool.cpp: the process-wide pool *)
(* ===================================================================== *)

Module GlobalPool.

Import CpuAffinity.

Section WithEnv.
Variable Env : Type.

(** [g_thread_pool] (a [std::unique_ptr<ThreadPool>], [None] when null).
    Each function below runs under [g_pool_mutex], hence atomically with
    respect to the other two.  [world] is the environment the callables act
    on while no pool exists; [retired] keeps the pools that were destroyed,
    in the state their destructor left them.  [caller_log] holds the lines
    written to the log by the threads that call the three functions below,
    constructor and destructor included since they run on the calling
    thread; what other threads write to the same sink (on Android each
    worker logs when it starts) is not part of it. *)
Record Process : Type := {
  g_thread_pool : option (Pool.State Env);
  world : Env;
  retired : list (Pool.State Env);
  caller_log : list (log_level * string)
}.

(** [std::make_unique<ThreadPool>(num_threads)], with the line the
    constructor logs on the calling thread, followed by the lines [msgs] of
    the caller. *)
Definition make_pool (num_threads : nat) (msgs : list (log_level * string))
           (g : Process) : Process :=
  {| g_thread_pool := Some (Pool.ThreadPool num_threads (world g));
     world := world g; retired := retired g;
     caller_log := caller_log g
                ++ (LogInfo, "Creating thread pool with {} workers"%string)
                :: msgs |}.

(** [void InitializeThreadPool(size_t num_threads = 3)] *)
Definition InitializeThreadPool (num_threads : nat) (g : Process) : Process :=
  match g_thread_pool g with
  | None =>
      make_pool num_threads
        [(LogInfo, "Global thread pool initialized with {} threads"%string)] g
  | Some _ => g
  end.

(** [ThreadPool& GetThreadPool()]: the process afterwards and the pool the
    returned reference designates. *)
Definition GetThreadPool (g : Process) : Process * Pool.State Env :=
  match g_thread_pool g with
  | None =>
      let g' :=
        make_pool 3
          [(LogWarning,
            "Thread pool auto-initialized (should call InitializeThreadPool explicitly)"%string)]
          g in
      (g', Pool.ThreadPool 3 (world g))
  | Some p => (g, p)
  end.

(** [void ShutdownThreadPool()].  [g_thread_pool.reset()] runs
    [~ThreadPool] on the calling thread: it sets [stop], then goes on while
    the other threads move as [sched] says, and the call returns when the
    destructor has.  [None]: under [sched] the call has not returned. *)
Definition ShutdownThreadPool (sched : list (Pool.event Env)) (g : Process)
  : option Process :=
  match g_thread_pool g with
  | Some p =>
      match Pool.run (Pool.EvDtor :: sched) p with
      | Some p' =>
          if Pool.destroyed p' then
            Some {| g_thread_pool := None; world := Pool.env p';
                    retired := retired g ++ [p'];
                    caller_log := caller_log g
                               ++ [(LogInfo, "Thread pool destroyed"%string);
                                   (LogInfo, "Global thread pool shutdown"%string)] |}
          else None
      | None => None
      end
  | None => Some g
  end.

Definition is_dtor (ev : Pool.event Env) : bool :=
  match ev with Pool.EvDtor => true | _ => false end.

(** The threads that hold the reference [GetThreadPool] returned use the
    pool (and its workers run) as [sched] says; only [ShutdownThreadPool]
    destroys it.  [None]: no pool, or [sched] is not a possible course of
    events. *)
Definition use_pool (sched : list (Pool.event Env)) (g : Process)
  : option Process :=
  match g_thread_pool g with
  | Some p =>
      if existsb is_dtor sched then None
      else match Pool.run sched p with
           | Some p' =>
               Some {| g_thread_pool := Some p'; world := world g;
                       retired := retired g; caller_log := caller_log g |}
           | None => None
           end
  | None => None
  end.

(** Number of [join] calls made on worker threads so far. *)
Definition joins (g : Process) : nat :=
  length (concat (map Pool.joined (retired g))).

(** The pool behind [g_thread_pool], when there is one, is a pool some
    constructor call made, used since, and not being destroyed. *)
Definition process_ok (g : Process) : Prop :=
  forall p, g_thread_pool g = Some p ->
            exists n e, Pool.reachable n e p /\ Pool.dtor p = Pool.Alive.
End WithEnv.

Arguments g_thread_pool {Env} _.
Arguments world {Env} _.
Arguments retired {Env} _.
Arguments caller_log {Env} _.
Arguments make_pool {Env} _ _ _.
Arguments InitializeThreadPool {Env} _ _.
Arguments GetThreadPool {Env} _.
Arguments ShutdownThreadPool {Env} _ _.
Arguments is_dtor {Env} _.
Arguments use_pool {Env} _ _.
Arguments joins {Env} _.
Arguments process_ok {Env} _.

End GlobalPool.

(* ===================================================================== *)
(** ** Concrete inputs used in the examples *)
(* ===================================================================== *)

Module Scenario.

Import Pool GlobalPool CpuAffinity.

(** Callables over a counter that each of them increments when run. *)
Definition failing : callable Z :=
  fun c => ((c + 1)%Z, Threw "task failed").

Definition answer : callable Z :=
  fun c => ((c + 1)%Z, Returned 42%Z).

(** The state a schedule leads to (the start state if it is not possible). *)
Definition after (sched : list (event Z)) (s : State Z) : State Z :=
  match run sched s with Some s' => s' | None => s end.

(** One worker; the destructor has just set [stop]. *)
Definition stopping_sched : list (event Z) := [EvDtor].
Definition stopping : State Z := after stopping_sched (ThreadPool 1 0%Z).

(** One worker; [failing] then [answer] submitted; the worker has popped
    [failing] and is about to call it. *)
Definition holding_sched : list (event Z) :=
  [EvEnqueue failing; EvEnqueue answer; EvWorker 0].
Definition holding : State Z := after holding_sched (ThreadPool 1 0%Z).

(** The same pool after both tasks ran and the destructor returned. *)
Definition torn_down_sched : list (event Z) :=
  holding_sched
    ++ [EvWorker 0; EvWorker 0; EvWorker 0;
        EvDtor; EvDtor; EvWorker 0; EvDtor; EvDtor].
Definition torn_down : State Z := after torn_down_sched (ThreadPool 1 0%Z).

(** Two workers, both blocked in [condition.wait] on an empty queue. *)
Definition asleep_sched : list (event Z) := [EvWorker 0; EvWorker 1].
Definition asleep : State Z := after asleep_sched (ThreadPool 2 0%Z).


(** The same pool given [answer]: the [notify_one] of [Enqueue] wakes
    worker 1, which pops the task and runs it. *)
Definition woken_sched : list (event Z) :=
  asleep_sched ++ [EvEnqueue answer; EvNotifyOne 1; EvWorker 1; EvWorker 1].
Definition woken : State Z := after woken_sched (ThreadPool 2 0%Z).

(** One worker; a client in [WaitForTasks] about to test an empty queue. *)
Definition polling_sched : list (event Z) := [EvWait].
Definition polling : State Z := after polling_sched (ThreadPool 1 0%Z).

(** A pool without workers that is given a task and destroyed. *)
Definition no_worker_sched : list (event Z) :=
  [EvEnqueue answer; EvDtor; EvDtor; EvDtor].

Definition unserved : State Z := after no_worker_sched (ThreadPool 0 0%Z).

(** A process in which no pool was made yet. *)
Definition no_pool : Process Z :=
  {| g_thread_pool := None; world := 0%Z; retired := []; caller_log := [] |}.

(** A process whose pool of two workers, never used, was shut down. *)
Definition shutdown_sched : list (event Z) :=
  [EvDtor; EvWorker 0; EvDtor; EvWorker 1; EvDtor; EvDtor].
Definition shut_down : Process Z :=
  match ShutdownThreadPool shutdown_sched (InitializeThreadPool 2 no_pool) with
  | Some g => g
  | None => no_pool
  end.

(** Eight configured CPUs, all available; the calling thread, 100, is
    pinned to CPUs 4-7. *)
Definition pinned (kernel_accepts : bool) : OS :=
  {| self := 100%Z; nprocessors_conf := 8%Z; available := 255%Z;
     affinity := fun _ => 240%Z;
     accepts := fun _ _ => kernel_accepts;
     os_log := [] |}.



(** An allocator that has nothing but zero-byte blocks to give. *)
Definition zero_bytes_only (alignment n : Z) : Z :=
  if (n =? 0)%Z then 4096%Z else 0%Z.

(** A process whose pool of one worker was given [failing] and [answer],
    neither run yet; and a course of events for shutting it down. *)
Definition busy : Process Z :=
  match use_pool [EvEnqueue failing; EvEnqueue answer]
                 (InitializeThreadPool 1 no_pool) with
  | Some g => g
  | None => no_pool
  end.
Definition busy_pool : State Z :=
  after [EvEnqueue failing; EvEnqueue answer] (ThreadPool 1 0%Z).
Definition busy_shutdown_sched : list (event Z) :=
  [EvWorker 0; EvWorker 0; EvWorker 0; EvWorker 0;
   EvWorker 0; EvDtor; EvDtor; EvDtor].
Definition busy_shut_down : Process Z :=
  match ShutdownThreadPool busy_shutdown_sched busy with
  | Some g => g
  | None => no_pool
  end.

(** An allocator that always answers with the same block. *)
Definition one_block (alignment n : Z) : Z := 4096%Z.

End Scenario.

Section AlignedAllocFacts.
Import AlignedAllocator.
Local Open Scope Z_scope.

Lemma land_lnot_ones (x k : Z) :
  0 <= k -> 0 <= x ->
  Z.land x (Z.lnot (2 ^ k - 1)) = 2 ^ k * (x / 2 ^ k).
Proof.
  intros Hk Hx.
  replace (2 ^ k - 1) with (Z.ones k) by (rewrite Z.ones_equiv; lia).
  rewrite <- Z.ldiff_land.
  rewrite Z.ldiff_ones_r by lia.
  rewrite Z.shiftr_div_pow2, Z.shiftl_mul_pow2 by lia. lia.
Qed.

Lemma land_wrap_r (w x y : Z) :
  0 <= w -> 0 <= x < 2 ^ w ->
  Z.land x (y mod 2 ^ w) = Z.land x y.
Proof.
  intros Hw Hx.
  rewrite <- Z.land_ones by lia.
  rewrite (Z.land_comm y), Z.land_assoc.
  f_equal. rewrite Z.land_ones by lia. apply Z.mod_small; lia.
Qed.

(** Without overflow the expression is the usual round-up. *)
Lemma aligned_size_no_overflow (w size k : Z) :
  0 <= k < w -> 0 <= size -> size + 2 ^ k - 1 < 2 ^ w ->
  aligned_size w size (2 ^ k) = 2 ^ k * ((size + 2 ^ k - 1) / 2 ^ k).
Proof.
  intros Hk Hs Hov.
  assert (Hp : 0 < 2 ^ k) by (apply Z.pow_pos_nonneg; lia).
  assert (Hlt : 2 ^ k < 2 ^ w) by (apply Z.pow_lt_mono_r; lia).
  unfold aligned_size, size_not, wrap.
  rewrite Zminus_mod_idemp_l.
  rewrite (Z.mod_small (size + 2 ^ k - 1)) by lia.
  rewrite (Z.mod_small (2 ^ k - 1)) by lia.
  rewrite land_wrap_r by lia.
  apply land_lnot_ones; lia.
Qed.

(** Where [size + alignment - 1] fits into a [size_t], the size requested
    from the platform allocator is [size] rounded up to the next multiple
    of the alignment; zero stays zero. *)
Lemma aligned_size_rounds_up (w size k : Z) :
  0 <= k < w -> 0 <= size -> size + 2 ^ k - 1 < 2 ^ w ->
  let r := aligned_size w size (2 ^ k) in
  size <= r < size + 2 ^ k /\ r mod 2 ^ k = 0
  /\ (size = 0 -> r = 0).
Proof.
  intros Hk Hs Hov r. unfold r.
  rewrite aligned_size_no_overflow by assumption.
  assert (Hp : 0 < 2 ^ k) by (apply Z.pow_pos_nonneg; lia).
  pose proof (Z.div_mod (size + 2 ^ k - 1) (2 ^ k) ltac:(lia)) as Hdm.
  pose proof (Z.mod_pos_bound (size + 2 ^ k - 1) (2 ^ k) Hp) as Hb.
  split; [lia|split].
  - rewrite Z.mul_comm. apply Z.mod_mul. lia.
  - intros ->. rewrite Z.add_0_l, Z.div_small by lia. lia.
Qed.

(** A size in the last [alignment - 1] values of [size_t] wraps: the size
    requested from the platform allocator is zero. *)
Lemma aligned_size_wraps (w size k : Z) :
  0 <= k < w -> 2 ^ w - 2 ^ k < size < 2 ^ w ->
  aligned_size w size (2 ^ k) = 0.
Proof.
  intros Hk Hs.
  assert (Hp : 0 < 2 ^ k) by (apply Z.pow_pos_nonneg; lia).
  assert (Hlt : 2 ^ k < 2 ^ w) by (apply Z.pow_lt_mono_r; lia).
  unfold aligned_size, size_not, wrap.
  rewrite Zminus_mod_idemp_l.
  replace ((size + 2 ^ k - 1) mod 2 ^ w) with (size + 2 ^ k - 1 - 2 ^ w).
  2:{ apply Z.mod_unique with (q := 1); lia. }
  rewrite (Z.mod_small (2 ^ k - 1)) by lia.
  rewrite land_wrap_r by lia.
  rewrite land_lnot_ones by lia.
  rewrite Z.div_small by lia. lia.
Qed.

(** C10.  At [size = SIZE_MAX] and the default alignment of 64 the
    computation of [aligned_size] wraps around to 0: the platform
    allocator is asked for zero bytes, and if it grants them [AlignedAlloc]
    returns that block as if it held [SIZE_MAX] bytes. *)
Theorem AlignedAlloc_wraps_at_SIZE_MAX :
  aligned_size 64 SIZE_MAX 64 = 0
  /\ ~ (SIZE_MAX <= aligned_size 64 SIZE_MAX 64)
  /\ AlignedAlloc 64 Scenario.zero_bytes_only SIZE_MAX 64 = Allocated 4096
  /\ AlignedAlloc 64 Scenario.zero_bytes_only 1 64 = bad_alloc.
Proof.
  assert (H : aligned_size 64 SIZE_MAX 64 = 0) by (vm_compute; reflexivity).
  split; [exact H|split; [rewrite H; unfold SIZE_MAX; lia|]].
  split; vm_compute; reflexivity.
Qed.
End AlignedAllocFacts.

(* ===================================================================== *)
(** ** Aligned allocation: further properties *)
(* ===================================================================== *)

Section AlignedAllocMore.
Import AlignedAllocator.
Local Open Scope Z_scope.

Lemma aligned_size_as_multiple (w size k : Z) :
  0 <= k < w ->
  aligned_size w size (2 ^ k)
  = 2 ^ k * (((size + 2 ^ k - 1) mod 2 ^ w) / 2 ^ k).
Proof.
  intros Hk.
  assert (Hp : 0 < 2 ^ k) by (apply Z.pow_pos_nonneg; lia).
  assert (Hlt : 2 ^ k < 2 ^ w) by (apply Z.pow_lt_mono_r; lia).
  assert (Hw : 0 < 2 ^ w) by lia.
  unfold aligned_size, size_not, wrap.
  rewrite Zminus_mod_idemp_l.
  rewrite (Z.mod_small (2 ^ k - 1)) by lia.
  pose proof (Z.mod_pos_bound (size + 2 ^ k - 1) (2 ^ w) Hw) as Hb.
  rewrite land_wrap_r by lia.
  apply land_lnot_ones; lia.
Qed.

(** X2.  Whatever the size, overflowing or not, the length [AlignedAlloc] asks
    the platform allocator for is a [size_t] and a multiple of the
    (power-of-two) alignment. *)
Theorem aligned_size_always_multiple (w size k : Z) :
  0 <= k < w ->
  0 <= aligned_size w size (2 ^ k) < 2 ^ w
  /\ aligned_size w size (2 ^ k) mod 2 ^ k = 0.
Proof.
  intros Hk.
  assert (Hp : 0 < 2 ^ k) by (apply Z.pow_pos_nonneg; lia).
  assert (Hlt : 2 ^ k < 2 ^ w) by (apply Z.pow_lt_mono_r; lia).
  rewrite aligned_size_as_multiple by exact Hk.
  pose proof (Z.mod_pos_bound (size + 2 ^ k - 1) (2 ^ w) ltac:(lia)) as Hb.
  set (x := (size + 2 ^ k - 1) mod 2 ^ w) in *.
  pose proof (Z.div_mod x (2 ^ k) ltac:(lia)) as Hdm.
  pose proof (Z.mod_pos_bound x (2 ^ k) Hp) as Hm.
  assert (0 <= x / 2 ^ k) by (apply Z.div_pos; lia).
  split; [nia|].
  rewrite Z.mul_comm. apply Z.mod_mul. lia.
Qed.

(** X3.  A size that is already a multiple of the alignment is passed on as it
    is, so rounding a rounded size changes nothing. *)
Theorem aligned_size_idempotent (w size k : Z) :
  0 <= k < w -> 0 <= size -> size + 2 ^ k - 1 < 2 ^ w ->
  (size mod 2 ^ k = 0 -> aligned_size w size (2 ^ k) = size)
  /\ (aligned_size w size (2 ^ k) + 2 ^ k - 1 < 2 ^ w ->
      aligned_size w (aligned_size w size (2 ^ k)) (2 ^ k)
      = aligned_size w size (2 ^ k)).
Proof.
  intros Hk Hs Hov.
  assert (Hp : 0 < 2 ^ k) by (apply Z.pow_pos_nonneg; lia).
  assert (Hfix : forall m, 0 <= m -> m + 2 ^ k - 1 < 2 ^ w ->
                           m mod 2 ^ k = 0 ->
                           aligned_size w m (2 ^ k) = m).
  { intros m Hm Hmo Hmod.
    rewrite aligned_size_no_overflow by assumption.
    apply Z.mod_divide in Hmod as [q ->]; [|lia].
    replace (q * 2 ^ k + 2 ^ k - 1) with (2 ^ k - 1 + q * 2 ^ k) by lia.
    rewrite Z.div_add, Z.div_small by lia. lia. }
  split; [apply Hfix; assumption|].
  intros Hov2.
  destruct (aligned_size_rounds_up w size k Hk Hs Hov) as (Hr & Hm & _).
  apply Hfix; [lia|exact Hov2|exact Hm].
Qed.

(** X1.  What a call comes to when nothing overflows: the platform allocator is
    asked once, for a length between [size] and [size + alignment - 1] that
    is a multiple of the alignment; its answer is returned as it is, and
    [std::bad_alloc] is thrown exactly when that answer is [nullptr]. *)
Theorem AlignedAlloc_outcome (w : Z) (underlying : Z -> Z -> Z)
        (size k : Z) :
  0 <= k < w -> 0 <= size -> size + 2 ^ k - 1 < 2 ^ w ->
  exists len,
    size <= len < size + 2 ^ k /\ len mod 2 ^ k = 0
    /\ (underlying (2 ^ k) len = 0 ->
        AlignedAlloc w underlying size (2 ^ k) = bad_alloc)
    /\ (underlying (2 ^ k) len <> 0 ->
        AlignedAlloc w underlying size (2 ^ k)
        = Allocated (underlying (2 ^ k) len)).
Proof.
  intros Hk Hs Hov. exists (aligned_size w size (2 ^ k)).
  destruct (aligned_size_rounds_up w size k Hk Hs Hov) as (Hr & Hm & _).
  split; [exact Hr|split; [exact Hm|]].
  unfold AlignedAlloc. split; intros H.
  - rewrite H. reflexivity.
  - apply Z.eqb_neq in H. rewrite H. reflexivity.
Qed.

(** X4.  With an alignment of zero the mask [~(alignment - 1)] is zero: zero
    bytes are asked for, whatever the size. *)
Theorem aligned_size_alignment_zero (w size : Z) :
  0 < w -> aligned_size w size 0 = 0.
Proof.
  intros Hw. unfold aligned_size, size_not, wrap.
  assert (Hp : 0 < 2 ^ w) by (apply Z.pow_pos_nonneg; lia).
  replace ((0 - 1) mod 2 ^ w) with (2 ^ w - 1).
  2:{ apply Z.mod_unique with (q := -1); lia. }
  replace (Z.lnot (2 ^ w - 1)) with (- 2 ^ w)
    by (pose proof (Z.add_lnot_diag (2 ^ w - 1)); lia).
  replace (- 2 ^ w mod 2 ^ w) with 0.
  2:{ apply Z.mod_unique with (q := -1); lia. }
  apply Z.land_0_r.
Qed.

(** X6.  [allocate(n)] multiplies without a check: when [n * sizeof(T)] does not
    fit into a [size_t], the length the platform allocator is asked for is
    smaller than the [n] elements need, and its answer is returned all the
    same. *)
Theorem allocate_product_overflow (w : Z) (underlying : Z -> Z -> Z)
        (sizeof_T k n : Z) :
  0 <= k < w -> 2 ^ w <= n * sizeof_T ->
  exists len,
    0 <= len < n * sizeof_T
    /\ allocate w underlying sizeof_T (2 ^ k) n
       = if underlying (2 ^ k) len =? 0 then bad_alloc
         else Allocated (underlying (2 ^ k) len).
Proof.
  intros Hk Hov.
  exists (aligned_size w (wrap w (n * sizeof_T)) (2 ^ k)).
  assert (Hp : 0 < 2 ^ k) by (apply Z.pow_pos_nonneg; lia).
  assert (Hw : 0 < 2 ^ w) by (apply Z.pow_pos_nonneg; lia).
  split; [|reflexivity].
  rewrite aligned_size_as_multiple by exact Hk.
  set (x := (wrap w (n * sizeof_T) + 2 ^ k - 1) mod 2 ^ w).
  pose proof (Z.mod_pos_bound (wrap w (n * sizeof_T) + 2 ^ k - 1)
                (2 ^ w) Hw) as Hb. fold x in Hb.
  pose proof (Z.mul_div_le x (2 ^ k) Hp) as Hle.
  assert (0 <= x / 2 ^ k) by (apply Z.div_pos; lia).
  nia.
Qed.

(** X5.  Where neither the product nor the rounding overflows, [allocate(n)]
    asks for at least [n * sizeof(T)] bytes, a multiple of the alignment. *)
Theorem allocate_enough (w : Z) (underlying : Z -> Z -> Z)
        (sizeof_T k n : Z) :
  0 <= k < w -> 0 <= n * sizeof_T ->
  n * sizeof_T + 2 ^ k - 1 < 2 ^ w ->
  exists len,
    n * sizeof_T <= len < n * sizeof_T + 2 ^ k /\ len mod 2 ^ k = 0
    /\ allocate w underlying sizeof_T (2 ^ k) n
       = if underlying (2 ^ k) len =? 0 then bad_alloc
         else Allocated (underlying (2 ^ k) len).
Proof.
  intros Hk Hn Hov.
  assert (Hp : 0 < 2 ^ k) by (apply Z.pow_pos_nonneg; lia).
  exists (aligned_size w (n * sizeof_T) (2 ^ k)).
  destruct (aligned_size_rounds_up w (n * sizeof_T) k Hk Hn Hov)
    as (Hr & Hm & _).
  split; [exact Hr|split; [exact Hm|]].
  unfold allocate, wrap. rewrite (Z.mod_small (n * sizeof_T)) by lia.
  reflexivity.
Qed.
End AlignedAllocMore.

(* ===================================================================== *)
(** ** Core affinity *)
(* ===================================================================== *)

Section AffinityFacts.
Import CpuAffinity.
Local Open Scope Z_scope.

Variable CPU_SETSIZE : Z.

Lemma CPU_SET_bits cpu set j :
  0 <= j ->
  Z.testbit (CPU_SET CPU_SETSIZE cpu set) j
  = Z.testbit set j || ((cpu =? j) && (0 <=? cpu) && (cpu <? CPU_SETSIZE)).
Proof.
  intros Hj. unfold CPU_SET.
  destruct (0 <=? cpu) eqn:H0; simpl.
  - destruct (cpu <? CPU_SETSIZE); simpl.
    + rewrite Z.lor_spec, Z.shiftl_1_l, Z.pow2_bits_eqb by lia.
      rewrite !andb_true_r. reflexivity.
    + rewrite !andb_false_r, orb_false_r. reflexivity.
  - rewrite !andb_false_r, orb_false_r. reflexivity.
Qed.

Lemma set_loop_bits n :
  forall i set j,
    0 <= i -> 0 <= j ->
    Z.testbit (set_loop CPU_SETSIZE n i set) j
    = Z.testbit set j
      || ((i <=? j) && (j <? i + Z.of_nat n) && (j <? CPU_SETSIZE)).
Proof.
  induction n as [|n IH]; intros i set j Hi Hj.
  - cbn [set_loop]. change (Z.of_nat 0) with 0. rewrite Z.add_0_r.
    destruct (Z.leb_spec i j), (Z.ltb_spec j i); simpl;
      rewrite ?orb_false_r; try reflexivity; lia.
  - cbn [set_loop]. rewrite IH, CPU_SET_bits by lia.
    destruct (Z.testbit set j); simpl; [reflexivity|].
    destruct (Z.eqb_spec i j), (Z.leb_spec 0 i), (Z.ltb_spec i CPU_SETSIZE),
             (Z.leb_spec (i + 1) j), (Z.ltb_spec j (i + 1 + Z.of_nat n)),
             (Z.leb_spec i j), (Z.ltb_spec j (i + Z.of_nat (S n))),
             (Z.ltb_spec j CPU_SETSIZE); simpl; try reflexivity; lia.
Qed.




End AffinityFacts.

(* ===================================================================== *)
(** ** Core affinity: pinning, and what the calls leave alone *)
(* ===================================================================== *)

Section AffinityMore.
Import CpuAffinity.
Local Open Scope Z_scope.

Variable CPU_SETSIZE : Z.

Lemma cpus_from_to_bits lo hi j :
  0 <= lo ->
  Z.testbit (cpus_from_to CPU_SETSIZE lo hi) j
  = (lo <=? j) && (j <? hi) && (j <? CPU_SETSIZE).
Proof.
  intros Hlo. destruct (Z.leb_spec 0 j) as [Hj|Hj].
  - unfold cpus_from_to. rewrite set_loop_bits by lia.
    unfold CPU_ZERO. rewrite Z.bits_0. simpl.
    destruct (Z.ltb_spec j (lo + Z.of_nat (Z.to_nat (hi - lo)))),
             (Z.ltb_spec j hi), (Z.leb_spec lo j);
      simpl; try reflexivity; lia.
  - rewrite Z.testbit_neg_r by exact Hj.
    destruct (Z.leb_spec lo j); [lia|reflexivity].
Qed.

(** What applying a mask does to the operating system, in full. *)
Lemma apply_mask_effect mask lvl ok_msg fail_msg os :
  let os' := apply_mask mask lvl ok_msg fail_msg os in
  self os' = self os
  /\ nprocessors_conf os' = nprocessors_conf os
  /\ available os' = available os
  /\ accepts os' = accepts os
  /\ (forall t, t <> self os -> affinity os' t = affinity os t)
  /\ affinity os' (self os)
     = (if accepts os (self os) mask then mask else affinity os (self os))
  /\ os_log os'
     = os_log os ++ [if accepts os (self os) mask then (lvl, ok_msg)
                     else (LogWarning, fail_msg)].
Proof.
  unfold apply_mask, sched_setaffinity.
  destruct (accepts os (self os) mask); simpl.
  - rewrite Z.eqb_refl. repeat split.
    intros t Ht. destruct (Z.eqb_spec t (self os)); [contradiction|reflexivity].
  - repeat split.
Qed.

(** The mask of the calling thread after applying a mask twice is the one
    after applying it once. *)
Lemma apply_mask_twice mask lvl ok_msg fail_msg os t :
  affinity (apply_mask mask lvl ok_msg fail_msg
              (apply_mask mask lvl ok_msg fail_msg os)) t
  = affinity (apply_mask mask lvl ok_msg fail_msg os) t.
Proof.
  destruct (apply_mask_effect mask lvl ok_msg fail_msg os)
    as (Hs & _ & _ & Ha & Ho & Hm & _).
  destruct (apply_mask_effect mask lvl ok_msg fail_msg
              (apply_mask mask lvl ok_msg fail_msg os))
    as (_ & _ & _ & _ & Ho2 & Hm2 & _).
  rewrite Hs, Ha in *.
  destruct (Z.eq_dec t (self os)) as [->|Hne].
  - rewrite Hm2, Hm. destruct (accepts os (self os) mask); reflexivity.
  - apply Ho2. exact Hne.
Qed.



(** X11.  The big-core and the little-core masks have no CPU in common. *)
Theorem big_little_disjoint :
  Z.land (cpus_from_to CPU_SETSIZE 4 8) (cpus_from_to CPU_SETSIZE 0 4) = 0.
Proof.
  apply Z.bits_inj'. intros j Hj.
  rewrite Z.land_spec, !cpus_from_to_bits, Z.bits_0 by lia.
  destruct (Z.leb_spec 4 j), (Z.ltb_spec j 4); simpl;
    rewrite ?andb_false_r; try reflexivity; lia.
Qed.

(** X12.  None of the three functions, on either build and whatever the kernel
    answers, changes the mask of another thread, or anything else than the
    caller's mask and the log; on the Android build each call logs exactly
    one line, on the other builds none. *)
Theorem affinity_calls_touch_only_caller (pf : platform) os t :
  t <> self os ->
  let lines := match pf with Android => 1%nat | OtherPlatform => 0%nat end in
  only_caller_changed lines t os (SetBigCoreAffinity CPU_SETSIZE pf os)
  /\ only_caller_changed lines t os (SetLittleCoreAffinity CPU_SETSIZE pf os)
  /\ only_caller_changed lines t os (ResetCoreAffinity CPU_SETSIZE pf os).
Proof.
  intros Ht lines.
  assert (G : forall m l a b,
             only_caller_changed 1 t os (apply_mask m l a b os)).
  { intros m l a b.
    destruct (apply_mask_effect m l a b os)
      as (Hs & Hn & Hav & _ & Ho & _ & Hl).
    unfold only_caller_changed.
    rewrite Hl, length_app. simpl. auto. }
  unfold SetBigCoreAffinity, SetLittleCoreAffinity, ResetCoreAffinity.
  destruct pf; unfold lines.
  - repeat split; apply G.
  - unfold only_caller_changed. repeat split; lia.
Qed.

(** X13.  Calling any of the three functions twice in a row leaves every thread
    with the mask it has after the first call. *)
Theorem affinity_calls_idempotent (pf : platform) os t :
  affinity (SetBigCoreAffinity CPU_SETSIZE pf
              (SetBigCoreAffinity CPU_SETSIZE pf os)) t
  = affinity (SetBigCoreAffinity CPU_SETSIZE pf os) t
  /\ affinity (SetLittleCoreAffinity CPU_SETSIZE pf
                 (SetLittleCoreAffinity CPU_SETSIZE pf os)) t
     = affinity (SetLittleCoreAffinity CPU_SETSIZE pf os) t
  /\ affinity (ResetCoreAffinity CPU_SETSIZE pf
                 (ResetCoreAffinity CPU_SETSIZE pf os)) t
     = affinity (ResetCoreAffinity CPU_SETSIZE pf os) t.
Proof.
  unfold SetBigCoreAffinity, SetLittleCoreAffinity, ResetCoreAffinity.
  destruct pf; [|repeat split].
  split; [apply apply_mask_twice|split; [apply apply_mask_twice|]].
  assert (Hm : reset_mask CPU_SETSIZE
                 (apply_mask (reset_mask CPU_SETSIZE os) LogDebug
                    "Thread {} affinity reset (all {} cores)"
                    "Failed to reset core affinity for TID {}: error {}" os)
               = reset_mask CPU_SETSIZE os).
  { unfold reset_mask.
    match goal with
    | |- context [apply_mask ?m ?l ?a ?b os] =>
        destruct (apply_mask_effect m l a b os) as (_ & Hn & _)
    end.
    rewrite Hn. reflexivity. }
  rewrite Hm. apply apply_mask_twice.
Qed.

(** X14.  [ResetCoreAffinity] undoes a pin: where the kernel accepts the reset,
    every thread's mask after pinning and resetting is the one after
    resetting alone. *)
Theorem ResetCoreAffinity_after_pin os t :
  accepts os (self os) (reset_mask CPU_SETSIZE os) = true ->
  affinity (ResetCoreAffinity CPU_SETSIZE Android
              (SetBigCoreAffinity CPU_SETSIZE Android os)) t
  = affinity (ResetCoreAffinity CPU_SETSIZE Android os) t
  /\ affinity (ResetCoreAffinity CPU_SETSIZE Android
                 (SetLittleCoreAffinity CPU_SETSIZE Android os)) t
     = affinity (ResetCoreAffinity CPU_SETSIZE Android os) t.
Proof.
  intros Hacc.
  assert (G : forall m l a b,
             affinity (ResetCoreAffinity CPU_SETSIZE Android
                         (apply_mask m l a b os)) t
             = affinity (ResetCoreAffinity CPU_SETSIZE Android os) t).
  { intros m l a b. unfold ResetCoreAffinity.
    destruct (apply_mask_effect m l a b os)
      as (Hs & Hn & _ & Ha & Ho & _ & _).
    assert (Hm : reset_mask CPU_SETSIZE (apply_mask m l a b os)
                 = reset_mask CPU_SETSIZE os)
      by (unfold reset_mask; rewrite Hn; reflexivity).
    rewrite Hm.
    match goal with
    | |- affinity (apply_mask ?m2 ?l2 ?a2 ?b2 ?o1) t
         = affinity (apply_mask ?m2 ?l2 ?a2 ?b2 os) t =>
        destruct (apply_mask_effect m2 l2 a2 b2 o1)
          as (_ & _ & _ & _ & Ho1 & Hm1 & _);
        destruct (apply_mask_effect m2 l2 a2 b2 os)
          as (_ & _ & _ & _ & Ho2 & Hm2 & _)
    end.
    rewrite Hs, Ha in *. rewrite Hacc in Hm1, Hm2.
    destruct (Z.eq_dec t (self os)) as [->|Hne].
    - rewrite Hm1, Hm2. reflexivity.
    - rewrite (Ho1 t Hne), (Ho2 t Hne). apply Ho. exact Hne. }
  unfold SetBigCoreAffinity, SetLittleCoreAffinity. split; apply G.
Qed.
End AffinityMore.

(* ===================================================================== *)
(** ** Prefetching a range *)
(* ===================================================================== *)

Section PrefetchFacts.
Import CachePrefetch.
Local Open Scope Z_scope.

Lemma lines_between_0 ptr end_ :
  lines_between ptr end_ = O <-> end_ <= ptr.
Proof.
  unfold lines_between. split; intros H.
  - destruct (Z_le_gt_dec end_ ptr) as [|Hgt]; [assumption|].
    assert (1 <= (end_ - ptr + 63) / 64)
      by (apply Z.div_le_lower_bound; lia).
    lia.
  - assert ((end_ - ptr + 63) / 64 <= 0); [|lia].
    assert ((end_ - ptr + 63) / 64 < 1); [|lia].
    apply Z.div_lt_upper_bound; lia.
Qed.

Lemma lines_between_S ptr end_ :
  ptr < end_ ->
  lines_between ptr end_ = S (lines_between (ptr + 64) end_).
Proof.
  intros H. unfold lines_between.
  replace (end_ - ptr + 63) with ((end_ - (ptr + 64) + 63) + 1 * 64) by lia.
  rewrite Z.div_add by lia.
  assert (0 <= (end_ - (ptr + 64) + 63) / 64)
    by (apply Z.div_pos; lia).
  rewrite Z2Nat.inj_add by lia. simpl. lia.
Qed.

Lemma line_addresses_S start n :
  line_addresses start (S n) = start :: line_addresses (start + 64) n.
Proof.
  unfold line_addresses, cache_line_size. simpl. f_equal; [lia|].
  rewrite <- fmap_S_seq, <- list_fmap_compose.
  apply list_fmap_ext. intros _ i _. simpl. lia.
Qed.

(** The hints for the cache lines at the addresses [l], in order. *)
Lemma hints_gnuc (l : list Z) :
  flat_map (fun a => Prefetch GnuC a 0 3) l
  = (fun a => builtin_prefetch a 0 3) <$> l.
Proof.
  induction l as [|a l IH]; [reflexivity|].
  simpl in *. rewrite IH. reflexivity.
Qed.

Lemma hints_other (l : list Z) :
  flat_map (fun a => Prefetch OtherCompiler a 0 3) l = [].
Proof. induction l as [|a l IH]; simpl; auto. Qed.

Lemma hints_addresses c (l : list Z) :
  c <> OtherCompiler ->
  hint_addr <$> flat_map (fun a => Prefetch c a 0 3) l = l.
Proof.
  intros Hc. induction l as [|a l IH]; simpl; [reflexivity|].
  rewrite fmap_app, IH. destruct c; [reflexivity|reflexivity|contradiction].
Qed.

(** With enough fuel, and no address running past the end of the address
    space, the loop visits [ptr], [ptr + 64], ... below [end_] and ends. *)
Lemma PrefetchRange_loop_lines w c :
  forall n fuel ptr end_,
    0 <= ptr -> end_ + 63 < 2 ^ w ->
    lines_between ptr end_ = n -> (n <= fuel)%nat ->
    PrefetchRange_loop w c fuel ptr end_
    = Some (flat_map (fun a => Prefetch c a 0 3) (line_addresses ptr n)).
Proof.
  induction n as [|n IH]; intros fuel ptr end_ Hp He Hn Hfuel.
  - apply lines_between_0 in Hn. destruct fuel; simpl;
      destruct (Z.ltb_spec ptr end_); try lia; reflexivity.
  - destruct fuel as [|fuel]; [lia|]. cbn [PrefetchRange_loop].
    assert (Hlt : ptr < end_).
    { destruct (Z_lt_le_dec ptr end_) as [|Hge]; [assumption|].
      apply lines_between_0 in Hge. congruence. }
    destruct (Z.ltb_spec ptr end_); [|lia].
    assert (Hw : wrap_ptr w (ptr + cache_line_size) = ptr + 64).
    { unfold wrap_ptr, cache_line_size. apply Z.mod_small. lia. }
    rewrite Hw, (IH fuel (ptr + 64) end_); [|lia|exact He| |lia].
    + rewrite line_addresses_S. reflexivity.
    + rewrite lines_between_S in Hn by exact Hlt. congruence.
Qed.

Lemma lines_le_size size start :
  0 <= size -> (lines_between start (start + size) <= Z.to_nat size)%nat.
Proof.
  intros Hs. unfold lines_between.
  replace (start + size - start + 63) with (size + 63) by lia.
  apply Z2Nat.inj_le; [apply Z.div_pos; lia|lia|].
  destruct (Z.eq_dec size 0) as [->|]; [reflexivity|].
  apply Z.lt_succ_r. apply Z.div_lt_upper_bound; lia.
Qed.

(** What [PrefetchRange] does on a range that lies inside the address
    space. *)
Lemma PrefetchRange_lines w c start size :
  0 <= start -> 0 <= size -> start + size + 63 < 2 ^ w ->
  PrefetchRange w c start size
  = Some (flat_map (fun a => Prefetch c a 0 3)
            (line_addresses start (Z.to_nat ((size + 63) / 64)))).
Proof.
  intros Hst Hs Hfit. unfold PrefetchRange.
  assert (Hw : wrap_ptr w (start + size) = start + size)
    by (unfold wrap_ptr; apply Z.mod_small; lia).
  rewrite Hw.
  apply PrefetchRange_loop_lines; [exact Hst|exact Hfit| |].
  - unfold lines_between. do 2 f_equal. lia.
  - replace ((size + 63) / 64) with ((start + size - start + 63) / 64)
      by (f_equal; lia).
    apply (lines_le_size size start Hs).
Qed.

(** X7.  On a range that lies inside the address space (neither
    [start + size] nor the last [ptr += 64] wraps around) [PrefetchRange]
    gives one hint per cache line, at [start], [start + 64], ...,
    [ceil(size / 64)] of them (none for [size = 0]), and returns; with GCC
    or Clang each is a read hint of locality 3.  Compilers the header does
    not know get no hint at all. *)
Theorem PrefetchRange_hints (w : Z) (c : compiler) (start size : Z) :
  0 <= start -> 0 <= size -> start + size + 63 < 2 ^ w ->
  let n := Z.to_nat ((size + 63) / 64) in
  (exists l, PrefetchRange w c start size = Some l
             /\ (c <> OtherCompiler ->
                 hint_addr <$> l = line_addresses start n))
  /\ PrefetchRange w GnuC start size
     = Some ((fun a => builtin_prefetch a 0 3) <$> line_addresses start n)
  /\ PrefetchRange w OtherCompiler start size = Some [].
Proof.
  intros Hst Hs Hfit n. rewrite !PrefetchRange_lines by assumption.
  fold n. split; [|split].
  - eexists. split; [reflexivity|]. apply hints_addresses.
  - rewrite hints_gnuc. reflexivity.
  - rewrite hints_other. reflexivity.
Qed.

(** X8.  On a range that lies inside the address space the hints stay
    inside the range and leave no gap: every hinted address is in
    [start, start + size), and every byte of the range lies in the 64 bytes
    that begin at some hinted address. *)
Theorem PrefetchRange_covers (w : Z) (c : compiler) (start size : Z) :
  0 <= start -> 0 <= size -> start + size + 63 < 2 ^ w ->
  c <> OtherCompiler ->
  exists l,
    PrefetchRange w c start size = Some l
    /\ (forall h, h ∈ l -> start <= hint_addr h < start + size)
    /\ (forall b, start <= b < start + size ->
                  exists h, h ∈ l /\ hint_addr h <= b < hint_addr h + 64).
Proof.
  intros Hst Hs Hfit Hc.
  set (n := Z.to_nat ((size + 63) / 64)).
  eexists. split; [apply PrefetchRange_lines; assumption|]. fold n.
  set (l := flat_map (fun a => Prefetch c a 0 3) (line_addresses start n)).
  assert (Ha : hint_addr <$> l = line_addresses start n)
    by (apply hints_addresses; exact Hc).
  assert (Hdiv : 0 <= (size + 63) / 64) by (apply Z.div_pos; lia).
  pose proof (Z.div_mod (size + 63) 64 ltac:(lia)) as Hdm.
  pose proof (Z.mod_pos_bound (size + 63) 64 ltac:(lia)) as Hmb.
  split.
  - intros h Hh.
    assert (Hin : hint_addr h ∈ line_addresses start n).
    { rewrite <- Ha. apply list_elem_of_fmap_2. exact Hh. }
    unfold line_addresses, cache_line_size in Hin.
    apply list_elem_of_fmap in Hin as (i & -> & Hi).
    apply elem_of_seq in Hi. unfold n in Hi. lia.
  - intros b Hb.
    set (i := Z.to_nat ((b - start) / 64)).
    assert (Hq : 0 <= (b - start) / 64) by (apply Z.div_pos; lia).
    pose proof (Z.div_mod (b - start) 64 ltac:(lia)) as Hbm.
    pose proof (Z.mod_pos_bound (b - start) 64 ltac:(lia)) as Hbb.
    assert (Hin : start + 64 * Z.of_nat i ∈ line_addresses start n).
    { unfold line_addresses, cache_line_size.
      apply list_elem_of_fmap. exists i. split; [reflexivity|].
      apply elem_of_seq. unfold i, n. split; [lia|].
      simpl. apply Z2Nat.inj_lt; [lia|lia|].
      apply Z.div_lt_upper_bound; [lia|]. lia. }
    rewrite <- Ha in Hin. apply list_elem_of_fmap in Hin as (h & Hh & Hhin).
    exists h. split; [exact Hhin|]. rewrite <- Hh. unfold i. lia.
Qed.

End PrefetchFacts.

(* ===================================================================== *)
(** ** The thread pool: shape of the steps *)
(* ===================================================================== *)

Section PoolSteps.
Import Pool.
Context {Env : Type}.
Implicit Types (s : State Env) (w : worker Env) (t : task Env).

Lemma empty_nil (q : list (task Env)) : empty q = true <-> q = [].
Proof. destruct q; simpl; split; congruence. Qed.

Lemma worker_runs_eq i w t s :
  worker_runs i w t s =
  {| workers := set_worker i Waiting w (workers s);
     tasks := tasks s; stop := stop s; dtor := dtor s; waiter := waiter s;
     notifying := notifying s;
     futures := <[tid t := Ready (snd (work t (env s)))]> (futures s);
     env := fst (work t (env s)); submitted := submitted s;
     accepted := accepted s; claimed := claimed s;
     executed := executed s ++ [tid t]; discarded := discarded s;
     joined := joined s |}.
Proof.
  unfold worker_runs, packaged_task_call.
  destruct (work t (env s)) as [e' r]; reflexivity.
Qed.

Lemma worker_step_inv i s s' :
  worker_step i s = Some s' ->
  exists w, workers s !! i = Some w /\
    ((pc w = Waiting /\ stop s = true /\ tasks s = []
      /\ s' = worker_exits i w s)
     \/ (exists t q, pc w = Waiting /\ tasks s = t :: q
                     /\ s' = worker_claims i w t q s)
     \/ (exists t, pc w = Running t /\ s' = worker_runs i w t s)
     \/ (pc w = Waiting /\ stop s = false /\ tasks s = []
         /\ s' = worker_sleeps i w s)).
Proof.
  unfold worker_step. intros H.
  destruct (workers s !! i) as [w|] eqn:Hw; [|discriminate].
  exists w; split; [reflexivity|].
  destruct (pc w) as [| |t| |e] eqn:Hpc; try discriminate.
  - destruct (stop s) eqn:Hs, (tasks s) as [|t q] eqn:Hq;
      simpl in H; try discriminate; inversion H; subst; eauto 10.
  - inversion H; subst; eauto 10.
Qed.

(** The two ways in which a blocked worker is woken by something else than
    the destructor: at most one worker leaves [condition.wait]. *)
Lemma wakeup_step_inv ev s s' :
  is_wakeup ev = true -> step ev s = Some s' ->
  exists k,
    s' = set_notifying k s
    \/ exists i w, workers s !! i = Some w /\ pc w = Sleeping
                   /\ s' = worker_wakes i w k s.
Proof.
  assert (Hsl : forall w, sleeping w = true -> pc w = Sleeping).
  { intros w. unfold sleeping. destruct (pc w); congruence. }
  destruct ev as [f|i| | |i|i]; try discriminate; intros _; simpl;
    intros H.
  - destruct (destroyed s); [discriminate|]. unfold notify_one in H.
    destruct (notifying s) as [|k]; [discriminate|]. exists k.
    destruct (existsb sleeping (workers s)).
    + destruct (workers s !! i) as [w|] eqn:Hw; [|discriminate].
      destruct (sleeping w) eqn:Hs; [|discriminate].
      injection H as <-. right. exists i, w. auto.
    + injection H as <-. left. reflexivity.
  - unfold spurious_wakeup in H.
    destruct (workers s !! i) as [w|] eqn:Hw; [|discriminate].
    destruct (sleeping w) eqn:Hs; [|discriminate].
    injection H as <-. exists (notifying s). right. exists i, w. auto.
Qed.

Lemma dtor_step_inv s s' :
  dtor_step s = Some s' ->
  (dtor s = Alive /\ s' = dtor_begins s)
  \/ (exists k, dtor s = Joining k /\ workers s !! k = None
                /\ s' = dtor_ends s)
  \/ (exists k w, dtor s = Joining k /\ workers s !! k = Some w
                  /\ joinable w = true /\ pc w = Exited
                  /\ s' = dtor_joins k s)
  \/ (exists k w, dtor s = Joining k /\ workers s !! k = Some w
                  /\ joinable w = false
                  /\ s' = set_dtor (Joining (S k)) s)
  \/ (dtor s = Stopping /\ s' = dtor_notifies s).
Proof.
  unfold dtor_step. intros H.
  destruct (dtor s) as [| |k|] eqn:Hd; try discriminate.
  - inversion H; auto.
  - inversion H; auto 10.
  - destruct (workers s !! k) as [w|] eqn:Hw.
    + destruct (joinable w) eqn:Hj.
      * destruct (pc w) eqn:Hpc; try discriminate.
        inversion H; subst. right; right; left; eauto 10.
      * inversion H; subst. right; right; right; left; eauto 10.
    + inversion H; subst. right; left; eauto.
Qed.

Lemma enqueue_step_inv f s s' :
  step (EvEnqueue f) s = Some s' ->
  destroyed s = false /\
  ((stop s = true /\ s' = s) \/ (stop s = false /\ s' = push_task f s)).
Proof.
  unfold step, Enqueue.
  destruct (destroyed s); [discriminate|].
  destruct (stop s); simpl; intros H; inversion H; auto.
Qed.

Lemma WaitForTasks_step_inv s s' :
  WaitForTasks_step s = Some s' -> exists p, s' = set_waiter p s.
Proof.
  unfold WaitForTasks_step.
  destruct (waiter s), (empty (tasks s)); intros H; inversion H; eauto.
Qed.

Lemma lookup_set_worker i j p w (ws : list (worker Env)) :
  ws !! i = Some w ->
  set_worker i p w ws !! j =
    if decide (i = j) then Some {| pc := p; joinable := joinable w |}
    else ws !! j.
Proof.
  intros Hw. unfold set_worker. rewrite list_lookup_insert.
  apply lookup_lt_Some in Hw.
  destruct (decide (i = j)), (decide (i = j /\ i < length ws));
    try tauto; lia.
Qed.

Lemma lookup_wake i (ws : list (worker Env)) :
  (wake <$> ws) !! i = wake <$> (ws !! i).
Proof. apply list_lookup_fmap. Qed.

Lemma run_app (a b : list (event Env)) s :
  run (a ++ b) s = match run a s with Some s' => run b s' | None => None end.
Proof.
  revert s; induction a as [|ev a IH]; intros s; simpl; [reflexivity|].
  destruct (step ev s); [apply IH|reflexivity].
Qed.

(** Proving a property of all reachable states from its preservation. *)
Lemma reachable_ind (P : State Env -> Prop) n e :
  P (ThreadPool n e) ->
  (forall ev s s', P s -> step ev s = Some s' -> P s') ->
  forall s, reachable n e s -> P s.
Proof.
  intros H0 Hstep s [sched Hrun].
  assert (G : forall s0, P s0 -> run sched s0 = Some s -> P s).
  { clear Hrun H0. induction sched as [|ev sched IH]; intros s0 Hs0; simpl.
    - intros [= <-]; exact Hs0.
    - destruct (step ev s0) as [s1|] eqn:E; [|discriminate].
      apply IH. eapply Hstep; eauto. }
  eapply G; eauto.
Qed.

Lemma reachable_step n e ev s s' :
  reachable n e s -> step ev s = Some s' -> reachable n e s'.
Proof.
  intros [sched Hrun] Hstep. exists (sched ++ [ev]).
  rewrite run_app, Hrun. simpl. rewrite Hstep. reflexivity.
Qed.

Lemma reachable_run n e sched s s' :
  reachable n e s -> run sched s = Some s' -> reachable n e s'.
Proof.
  intros [sched0 Hrun] Hs. exists (sched0 ++ sched).
  rewrite run_app, Hrun. exact Hs.
Qed.
End PoolSteps.

(* ===================================================================== *)
(** ** The thread pool: what every reachable state satisfies *)
(* ===================================================================== *)

Section PoolInvariant.
Import Pool.
Context {Env : Type}.
Implicit Types (s : State Env) (w : worker Env) (t : task Env).

Lemma inv_claimed_lt n s id :
  pool_inv n s -> id ∈ claimed s -> id < length (futures s).
Proof.
  intros H Hid.
  assert (Ha : id ∈ accepted s).
  { rewrite (inv_fifo _ _ H). apply elem_of_app; auto. }
  rewrite (inv_ids _ _ H) in Ha. apply elem_of_seq in Ha. lia.
Qed.

(** While [stop] is clear the destructor has not been entered and nothing
    was destroyed with the queue. *)
Lemma dtor_inv_running n s :
  dtor_inv n s -> stop s = false -> dtor s = Alive /\ discarded s = [].
Proof.
  unfold dtor_inv. intros Hd Hs.
  destruct (dtor s); [tauto| | |]; destruct Hd; congruence.
Qed.

Lemma pc_wake w :
  pc (wake w) = match pc w with Sleeping => Waiting | p => p end
  /\ joinable (wake w) = joinable w.
Proof. unfold wake. destruct (pc w) eqn:E; simpl; rewrite ?E; auto. Qed.

Lemma abandon_ready (q : list (task Env)) id r :
  abandon q id (Ready r) = Ready r.
Proof. unfold abandon. destruct (queued q id); reflexivity. Qed.

Lemma queued_spec (q : list (task Env)) id :
  queued q id = true <-> id ∈ (tid <$> q).
Proof.
  unfold queued. rewrite existsb_exists, list_elem_of_fmap. split.
  - intros (t & Hin & Heq). apply Nat.eqb_eq in Heq.
    exists t. split; [auto|]. apply list_elem_of_In. exact Hin.
  - intros (t & -> & Hin). exists t. split.
    + apply list_elem_of_In. exact Hin.
    + apply Nat.eqb_refl.
Qed.

Lemma inv_init n (e : Env) : pool_inv n (ThreadPool n e).
Proof.
  split; simpl.
  - apply length_replicate.
  - reflexivity.
  - reflexivity.
  - intros i w t Hw Hpc. apply lookup_replicate in Hw as [-> _].
    discriminate.
  - intros id Hid. inversion Hid.
  - intros id Hid. inversion Hid.
  - intros i w Hw. apply lookup_replicate in Hw as [-> _]. exact I.
  - unfold dtor_inv; simpl. repeat split.
    intros i w Hw. apply lookup_replicate in Hw as [-> _]. reflexivity.
Qed.

Lemma inv_push n f s :
  pool_inv n s -> stop s = false -> pool_inv n (push_task f s).
Proof.
  intros [Hc Hi Hf Hr Hcl Hex Hw Hd] Hstop.
  destruct (dtor_inv_running _ _ Hd Hstop) as [Hal Hdis].
  split; simpl; auto.
  - rewrite Hi, length_app. simpl.
    rewrite Nat.add_1_r, seq_S. reflexivity.
  - rewrite Hdis, app_nil_r in *. rewrite fmap_app, app_assoc, <- Hf.
    reflexivity.
  - intros id Hid. destruct (Hex id Hid) as [Hin [r Hfut]].
    split; [exact Hin|]. exists r. apply lookup_app_l_Some. exact Hfut.
  - intros i w Hlk. specialize (Hw i w Hlk). unfold worker_ok in *.
    simpl. destruct (pc w); auto. destruct Hw; congruence.
  - unfold dtor_inv in *; simpl. rewrite Hal in *. exact Hd.
Qed.

Lemma inv_set_waiter n p s : pool_inv n s -> pool_inv n (set_waiter p s).
Proof. intros [Hc Hi Hf Hr Hcl Hex Hw Hd]. split; simpl; auto. Qed.

Lemma inv_set_notifying n k s :
  pool_inv n s -> pool_inv n (set_notifying k s).
Proof. intros [Hc Hi Hf Hr Hcl Hex Hw Hd]. split; simpl; auto. Qed.

(** A worker that has not returned changes position: the destructor's
    view of the workers is not affected.  A worker does not block once
    [stop] is set. *)
Lemma dtor_inv_set_worker n i w p s s' :
  dtor_inv n s -> workers s !! i = Some w -> pc w <> Exited ->
  (p = Sleeping -> stop s = false) ->
  workers s' = set_worker i p w (workers s) ->
  stop s' = stop s -> dtor s' = dtor s -> joined s' = joined s ->
  discarded s' = discarded s ->
  dtor_inv n s'.
Proof.
  unfold dtor_inv. intros Hd Hlk Hpc Hp Hws Hst Hdt Hj Hdis.
  rewrite Hdt, Hst, Hj, Hdis, Hws. destruct (dtor s) as [| |k|].
  - destruct Hd as (Hs & Hjs & Hds & Hall). repeat split; auto.
    intros j w'. rewrite (lookup_set_worker i j _ w) by exact Hlk.
    destruct (decide (i = j)); [intros [= <-]; simpl; eauto|apply Hall].
  - destruct Hd as (Hs & Hjs & Hds & Hall). repeat split; auto.
    intros j w'. rewrite (lookup_set_worker i j _ w) by exact Hlk.
    destruct (decide (i = j)); [intros [= <-]; simpl; eauto|apply Hall].
  - destruct Hd as (Hs & Hk & Hjs & Hds & Hall).
    split; [auto|split; [auto|split; [auto|split; [auto|]]]].
    intros j w'. rewrite (lookup_set_worker i j _ w) by exact Hlk.
    destruct (decide (i = j)) as [<-|]; [|apply Hall].
    intros [= <-]. destruct (Hall _ _ Hlk) as (Hlt & Hge & Hsl).
    split; [|split].
    + intros Hik. rewrite (Hlt Hik) in Hpc. contradiction Hpc; reflexivity.
    + intros Hik. simpl. auto.
    + simpl. intros Heq. specialize (Hp Heq). congruence.
  - destruct Hd as (Hs & Hjs & Hq & Hds & Hall).
    rewrite (Hall _ _ Hlk) in Hpc. contradiction Hpc; reflexivity.
Qed.

Lemma inv_worker_exits n i w s :
  pool_inv n s -> workers s !! i = Some w -> pc w = Waiting ->
  stop s = true -> tasks s = [] -> pool_inv n (worker_exits i w s).
Proof.
  intros [Hc Hi Hf Hr Hcl Hex Hw Hd] Hlk Hpc Hstop Hq. split; simpl; auto.
  - unfold set_worker. rewrite length_insert. exact Hc.
  - intros j w' t. rewrite (lookup_set_worker i j _ w) by exact Hlk.
    destruct (decide (i = j)); [intros [= <-]; discriminate|]. apply Hr.
  - intros id Hid. destruct (Hcl id Hid) as [?|(j & w' & t & Hj & Hp & Ht)];
      [auto|right].
    exists j, w', t. rewrite (lookup_set_worker i j _ w) by exact Hlk.
    destruct (decide (i = j)); [subst; congruence|auto].
  - intros j w'. rewrite (lookup_set_worker i j _ w) by exact Hlk.
    destruct (decide (i = j)).
    + intros [= <-]. unfold worker_ok; simpl. auto.
    + apply Hw.
  - eapply (dtor_inv_set_worker n i w Exited s); eauto; congruence.
Qed.

(** A worker goes to sleep or is woken: nothing else changes but, in the
    second case, the count of notifications still to be made. *)
Lemma inv_worker_idles n i w p k s s' :
  pool_inv n s -> workers s !! i = Some w ->
  (pc w = Waiting \/ pc w = Sleeping) ->
  (p = Waiting \/ p = Sleeping /\ stop s = false) ->
  s' = worker_wakes i w k s \/ (p = Sleeping /\ s' = worker_sleeps i w s) ->
  workers s' = set_worker i p w (workers s) ->
  pool_inv n s'.
Proof.
  intros [Hc Hi Hf Hr Hcl Hex Hw Hd] Hlk Hpc Hp Hs' Hws.
  assert (Hnr : forall t, pc w <> Running t)
    by (intros t; destruct Hpc; congruence).
  assert (Hpr : forall t, p <> Running t)
    by (intros t; destruct Hp as [->|[-> _]]; congruence).
  assert (Hrest : tasks s' = tasks s /\ stop s' = stop s
                  /\ dtor s' = dtor s /\ futures s' = futures s
                  /\ accepted s' = accepted s /\ claimed s' = claimed s
                  /\ executed s' = executed s /\ joined s' = joined s
                  /\ discarded s' = discarded s).
  { destruct Hs' as [->|[_ ->]]; simpl; auto 10. }
  destruct Hrest as (Eq & Es & Ed & Ef & Ea & Ec & Ex & Ej & Edi).
  split; rewrite ?Hws, ?Eq, ?Es, ?Ed, ?Ef, ?Ea, ?Ec, ?Ex, ?Ej, ?Edi; auto.
  - unfold set_worker. rewrite length_insert. exact Hc.
  - intros j w' t. rewrite (lookup_set_worker i j _ w) by exact Hlk.
    destruct (decide (i = j)); [|apply Hr].
    intros [= <-]; simpl. intros Heq. destruct (Hpr _ Heq).
  - intros id Hid. destruct (Hcl id Hid) as [?|(j & w' & t & Hj & Hp' & Ht)];
      [auto|right].
    exists j, w', t. rewrite (lookup_set_worker i j _ w) by exact Hlk.
    destruct (decide (i = j)); [|auto].
    subst j. rewrite Hlk in Hj. injection Hj as <-. destruct (Hnr _ Hp').
  - intros j w'. rewrite (lookup_set_worker i j _ w) by exact Hlk.
    destruct (decide (i = j)).
    + intros [= <-]. unfold worker_ok; simpl.
      destruct Hp as [->|[-> _]]; exact I.
    + intros Hj. specialize (Hw j w' Hj). unfold worker_ok in *.
      rewrite Es, Eq. exact Hw.
  - eapply (dtor_inv_set_worker n i w p s); eauto.
    + destruct Hpc; congruence.
    + intros ->. destruct Hp as [|[_ ?]]; [discriminate|assumption].
Qed.

Lemma inv_worker_sleeps n i w s :
  pool_inv n s -> workers s !! i = Some w -> pc w = Waiting ->
  stop s = false -> pool_inv n (worker_sleeps i w s).
Proof.
  intros Hinv Hlk Hpc Hs.
  eapply (inv_worker_idles n i w Sleeping 0 s); eauto.
Qed.

Lemma inv_worker_wakes n i w k s :
  pool_inv n s -> workers s !! i = Some w -> pc w = Sleeping ->
  pool_inv n (worker_wakes i w k s).
Proof.
  intros Hinv Hlk Hpc.
  eapply (inv_worker_idles n i w Waiting k s); eauto.
Qed.

Lemma inv_worker_claims n i w t q s :
  pool_inv n s -> workers s !! i = Some w -> pc w = Waiting ->
  tasks s = t :: q -> pool_inv n (worker_claims i w t q s).
Proof.
  intros [Hc Hi Hf Hr Hcl Hex Hw Hd] Hlk Hpc Hq. split; simpl; auto.
  - unfold set_worker. rewrite length_insert. exact Hc.
  - rewrite Hf, Hq. simpl. rewrite <- app_assoc. reflexivity.
  - intros j w' t'. rewrite (lookup_set_worker i j _ w) by exact Hlk.
    destruct (decide (i = j)).
    + intros [= <-]; simpl. intros [= <-]. apply elem_of_app. right.
      apply list_elem_of_singleton. reflexivity.
    + intros Hj Hp. apply elem_of_app. left. eapply Hr; eauto.
  - intros id Hid. apply elem_of_app in Hid as [Hid|Hid].
    + destruct (Hcl id Hid) as [?|(j & w' & t' & Hj & Hp & Ht)];
        [auto|right].
      exists j, w', t'. rewrite (lookup_set_worker i j _ w) by exact Hlk.
      destruct (decide (i = j)); [subst; congruence|auto].
    + apply list_elem_of_singleton in Hid as ->. right.
      exists i, {| pc := Running t; joinable := joinable w |}, t.
      rewrite (lookup_set_worker i i _ w) by exact Hlk.
      destruct (decide (i = i)); [auto|congruence].
  - intros id Hid. destruct (Hex id Hid) as [Hin Hfut]. split; [|exact Hfut].
    apply elem_of_app; auto.
  - intros j w'. rewrite (lookup_set_worker i j _ w) by exact Hlk.
    destruct (decide (i = j)).
    + intros [= <-]. exact I.
    + intros Hj. specialize (Hw j w' Hj). unfold worker_ok in *; simpl.
      destruct (pc w'); auto. destruct Hw; congruence.
  - eapply (dtor_inv_set_worker n i w (Running t) s); eauto; congruence.
Qed.

Lemma inv_worker_runs n i w t s :
  pool_inv n s -> workers s !! i = Some w -> pc w = Running t ->
  pool_inv n (worker_runs i w t s).
Proof.
  intros Hinv Hlk Hpc. rewrite worker_runs_eq.
  assert (Hlt : tid t < length (futures s)).
  { eapply inv_claimed_lt; eauto. eapply inv_running; eauto. }
  destruct Hinv as [Hc Hi Hf Hr Hcl Hex Hw Hd]. split; simpl; auto.
  - unfold set_worker. rewrite length_insert. exact Hc.
  - rewrite length_insert. exact Hi.
  - intros j w' t'. rewrite (lookup_set_worker i j _ w) by exact Hlk.
    destruct (decide (i = j)); [intros [= <-]; discriminate|]. apply Hr.
  - intros id Hid.
    destruct (Hcl id Hid) as [?|(j & w' & t' & Hj & Hp & Ht)].
    + left. apply elem_of_app; auto.
    + destruct (decide (i = j)) as [<-|Hne].
      * left. apply elem_of_app. right. apply list_elem_of_singleton.
        rewrite Hlk in Hj. injection Hj as <-. congruence.
      * right. exists j, w', t'.
        rewrite (lookup_set_worker i j _ w) by exact Hlk.
        destruct (decide (i = j)); [contradiction|auto].
  - intros id Hid. apply elem_of_app in Hid as [Hid|Hid].
    + destruct (Hex id Hid) as [Hin [r Hfut]]. split; [exact Hin|].
      rewrite list_lookup_insert.
      destruct (decide (tid t = id /\ tid t < length (futures s))); eauto.
    + apply list_elem_of_singleton in Hid as ->. split; [eapply Hr; eauto|].
      eexists. apply list_lookup_insert_eq. exact Hlt.
  - intros j w'. rewrite (lookup_set_worker i j _ w) by exact Hlk.
    destruct (decide (i = j)); [intros [= <-]; exact I|apply Hw].
  - eapply (dtor_inv_set_worker n i w Waiting s); eauto; congruence.
Qed.

Lemma inv_dtor_begins n s :
  pool_inv n s -> dtor s = Alive -> pool_inv n (dtor_begins s).
Proof.
  intros [Hc Hi Hf Hr Hcl Hex Hw Hd] Hal. split; simpl; auto.
  - intros i w Hlk. specialize (Hw i w Hlk). unfold worker_ok in *; simpl.
    destruct (pc w); auto. destruct Hw; auto.
  - unfold dtor_inv in *; simpl. rewrite Hal in Hd.
    destruct Hd as (Hs & Hj & Hdis & Hall). auto.
Qed.

Lemma inv_dtor_notifies n s :
  pool_inv n s -> dtor s = Stopping -> pool_inv n (dtor_notifies s).
Proof.
  intros [Hc Hi Hf Hr Hcl Hex Hw Hd] Hst. split; simpl; auto.
  - rewrite length_fmap. exact Hc.
  - intros i w t. rewrite lookup_wake.
    destruct (workers s !! i) as [w0|] eqn:Hlk; [|discriminate].
    intros [= <-]. destruct (pc_wake w0) as [-> _].
    destruct (pc w0) eqn:E; try discriminate.
    intros [= <-]. eapply Hr; eauto.
  - intros id Hid. destruct (Hcl id Hid) as [?|(j & w' & t & Hj & Hp & Ht)];
      [auto|right].
    exists j, w', t. rewrite lookup_wake, Hj. simpl.
    unfold wake. rewrite Hp. auto.
  - intros i w. rewrite lookup_wake.
    destruct (workers s !! i) as [w0|] eqn:Hlk; [|discriminate].
    intros [= <-]. specialize (Hw i w0 Hlk). unfold worker_ok in *.
    destruct (pc_wake w0) as [-> _]. simpl.
    destruct (pc w0); auto.
  - unfold dtor_inv in *; simpl. rewrite Hst in Hd.
    destruct Hd as (Hs & Hj & Hdis & Hall).
    split; [auto|split; [lia|split; [exact Hj|split; [exact Hdis|]]]].
    intros i w. rewrite lookup_wake.
    destruct (workers s !! i) as [w0|] eqn:Hlk; [|discriminate].
    intros [= <-]. destruct (pc_wake w0) as [Hp Hjn].
    split; [lia|split].
    + intros _. rewrite Hjn. eauto.
    + rewrite Hp. destruct (pc w0); discriminate.
Qed.

Lemma inv_dtor_joins n k w s :
  pool_inv n s -> dtor s = Joining k -> workers s !! k = Some w ->
  pc w = Exited -> pool_inv n (dtor_joins k s).
Proof.
  intros [Hc Hi Hf Hr Hcl Hex Hw Hd] Hjn Hlk Hpc.
  assert (Hk : k < length (workers s)) by (eapply lookup_lt_Some; eauto).
  assert (Hlook : forall j,
             <[k := joined_worker]> (workers s) !! j =
             if decide (k = j) then Some joined_worker else workers s !! j).
  { intros j. rewrite list_lookup_insert.
    destruct (decide (k = j)), (decide (k = j /\ k < length (workers s)));
      try tauto; lia. }
  fold (@joined_worker Env). split; simpl; auto.
  - rewrite length_insert. exact Hc.
  - intros j w' t. rewrite Hlook.
    destruct (decide (k = j)); [intros [= <-]; discriminate|]. apply Hr.
  - intros id Hid. destruct (Hcl id Hid) as [?|(j & w' & t & Hj & Hp & Ht)];
      [auto|right].
    exists j, w', t. rewrite Hlook.
    destruct (decide (k = j)); [subst; congruence|auto].
  - intros j w'. rewrite Hlook. destruct (decide (k = j)); [|apply Hw].
    intros [= <-]. specialize (Hw k w Hlk). unfold worker_ok in *.
    rewrite Hpc in Hw. exact Hw.
  - unfold dtor_inv in *; simpl. rewrite Hjn in Hd.
    destruct Hd as (Hs & Hkn & Hj & Hdis & Hall).
    split; [auto|split; [lia|split; [|split; [exact Hdis|]]]].
    + rewrite Hj. symmetry. exact (seq_S k 0).
    + intros j w'. rewrite Hlook. destruct (decide (k = j)) as [<-|Hne].
      * intros [= <-]. split; [reflexivity|split; [lia|discriminate]].
      * intros Hlk'. destruct (Hall _ _ Hlk') as (Hlt & Hge & Hsl).
        split; [|split; [|exact Hsl]]; intros; [apply Hlt|apply Hge]; lia.
Qed.

Lemma inv_dtor_ends n k s :
  pool_inv n s -> dtor s = Joining k -> workers s !! k = None ->
  pool_inv n (dtor_ends s).
Proof.
  intros [Hc Hi Hf Hr Hcl Hex Hw Hd] Hjn Hlk.
  unfold dtor_inv in Hd. rewrite Hjn in Hd.
  destruct Hd as (Hs & Hkn & Hj & Hdis & Hall).
  apply lookup_ge_None in Hlk.
  assert (k = n) as -> by lia.
  split; simpl; auto.
  - rewrite length_imap. exact Hi.
  - rewrite Hf, Hdis. simpl. rewrite app_nil_r. reflexivity.
  - intros id Hid. destruct (Hex id Hid) as [Hin [r Hfut]].
    split; [exact Hin|]. exists r.
    rewrite list_lookup_imap, Hfut. simpl. rewrite abandon_ready.
    reflexivity.
  - intros i w Hi'. specialize (Hw i w Hi'). unfold worker_ok in *; simpl.
    destruct (pc w); auto.
  - unfold dtor_inv; simpl.
    split; [auto|split; [auto|split; [auto|split]]].
    + intros Hn. rewrite Hdis. simpl.
      destruct (lookup_lt_is_Some_2 (workers s) 0) as [w0 Hw0]; [lia|].
      pose proof (Hw _ _ Hw0) as Hok.
      destruct (Hall _ _ Hw0) as (Hlt & _). rewrite Hlt in Hok by lia.
      unfold worker_ok in Hok; simpl in Hok. destruct Hok as [_ ->].
      reflexivity.
    + intros i w Hi'. apply (Hall _ _ Hi').
      apply lookup_lt_Some in Hi'. lia.
Qed.

Lemma inv_dtor_skips n k w s :
  pool_inv n s -> dtor s = Joining k -> workers s !! k = Some w ->
  joinable w = false -> pool_inv n (set_dtor (Joining (S k)) s).
Proof.
  intros [Hc Hi Hf Hr Hcl Hex Hw Hd] Hjn Hlk Hjb. exfalso.
  unfold dtor_inv in Hd. rewrite Hjn in Hd.
  destruct Hd as (_ & _ & _ & _ & Hall).
  destruct (Hall _ _ Hlk) as (_ & Hge & _). rewrite Hge in Hjb by lia.
  discriminate.
Qed.

(** Every step keeps the invariant. *)
Lemma inv_step n ev s s' :
  pool_inv n s -> step ev s = Some s' -> pool_inv n s'.
Proof.
  intros Hinv Hstep.
  destruct (is_wakeup ev) eqn:Hwk.
  { destruct (wakeup_step_inv _ _ _ Hwk Hstep)
      as (k & [->|(i & w & Hlk & Hpc & ->)]).
    - apply inv_set_notifying, Hinv.
    - apply inv_worker_wakes; assumption. }
  destruct ev as [f|i| | |i|i]; try discriminate.
  - apply enqueue_step_inv in Hstep as [_ [[_ ->]|[Hs ->]]];
      [exact Hinv|apply inv_push; assumption].
  - apply worker_step_inv in Hstep
      as (w & Hlk & [(Hpc & Hs & Hq & ->)
                    |[(t & q & Hpc & Hq & ->)
                     |[(t & Hpc & ->)|(Hpc & Hs & Hq & ->)]]]).
    + apply inv_worker_exits; assumption.
    + apply inv_worker_claims; assumption.
    + apply inv_worker_runs; assumption.
    + apply inv_worker_sleeps; assumption.
  - simpl in Hstep. destruct (destroyed s); [discriminate|].
    apply WaitForTasks_step_inv in Hstep as [p ->]. apply inv_set_waiter, Hinv.
  - apply dtor_step_inv in Hstep
      as [(Hd & ->)|[(k & Hd & Hlk & ->)
                    |[(k & w & Hd & Hlk & Hj & Hpc & ->)
                     |[(k & w & Hd & Hlk & Hj & ->)|(Hd & ->)]]]].
    + apply inv_dtor_begins; assumption.
    + eapply inv_dtor_ends; eassumption.
    + eapply inv_dtor_joins; eassumption.
    + eapply inv_dtor_skips; eassumption.
    + apply inv_dtor_notifies; assumption.
Qed.

Lemma inv_reachable n e s : reachable n e s -> pool_inv n s.
Proof.
  apply reachable_ind; [apply inv_init|].
  intros ev s0 s1 H0 Hstep. eapply inv_step; eauto.
Qed.
End PoolInvariant.

(* ===================================================================== *)
(** ** The thread pool: the destructor can always finish *)
(* ===================================================================== *)

Section PoolTeardown.
Import Pool.
Context {Env : Type}.
Implicit Types (s : State Env) (w : worker Env) (t : task Env).

Lemma waiting_eta w :
  pc w = Waiting -> {| pc := Waiting; joinable := joinable w |} = w.
Proof. destruct w; simpl; intros ->; reflexivity. Qed.

(** The worker completes the task it holds, if any. *)
Lemma finish_phase i w s :
  workers s !! i = Some w ->
  (pc w = Waiting \/ exists t, pc w = Running t) ->
  exists s1,
    run (match pc w with Running _ => [EvWorker i] | _ => [] end) s
      = Some s1
    /\ workers s1 = set_worker i Waiting w (workers s)
    /\ tasks s1 = tasks s /\ stop s1 = stop s /\ dtor s1 = dtor s.
Proof.
  intros Hlk [Hpc|[t Hpc]]; rewrite Hpc; simpl.
  - exists s. repeat split; auto. unfold set_worker.
    rewrite waiting_eta by exact Hpc.
    symmetry. apply list_insert_id. exact Hlk.
  - unfold worker_step. rewrite Hlk, Hpc. eexists; split; [reflexivity|].
    rewrite worker_runs_eq; simpl. auto.
Qed.

(** A waiting worker empties the queue, one task after the other. *)
Lemma drain_phase i w (q : list (task Env)) :
  forall s,
    workers s !! i = Some w -> pc w = Waiting -> tasks s = q ->
    exists s2,
      run (concat (replicate (length q) [EvWorker i; EvWorker i])) s
        = Some s2
      /\ workers s2 = workers s
      /\ tasks s2 = [] /\ stop s2 = stop s /\ dtor s2 = dtor s.
Proof.
  induction q as [|t q IH]; intros s Hlk Hpc Hq; simpl.
  - exists s. auto.
  - assert (H1 : worker_step i s = Some (worker_claims i w t q s)).
    { unfold worker_step. rewrite Hlk, Hpc, Hq. simpl.
      rewrite orb_true_r, andb_false_r. reflexivity. }
    rewrite H1.
    set (sa := worker_claims i w t q s).
    set (wa := {| pc := Running t; joinable := joinable w |}).
    assert (Hlka : workers sa !! i = Some wa).
    { unfold sa; simpl. rewrite (lookup_set_worker i i _ w) by exact Hlk.
      destruct (decide (i = i)); [reflexivity|congruence]. }
    assert (H2 : worker_step i sa = Some (worker_runs i wa t sa)).
    { unfold worker_step. rewrite Hlka. reflexivity. }
    rewrite H2. set (sb := worker_runs i wa t sa).
    assert (Hwb : workers sb = workers s).
    { unfold sb. rewrite worker_runs_eq. simpl. unfold set_worker. simpl.
      rewrite list_insert_insert_eq, waiting_eta by exact Hpc.
      apply list_insert_id. exact Hlk. }
    assert (Hsb : tasks sb = q /\ stop sb = stop s /\ dtor sb = dtor s).
    { unfold sb. rewrite worker_runs_eq. simpl. auto. }
    destruct Hsb as (Hqb & Hstb & Hdb).
    destruct (IH sb) as (s2 & Hrun & Hw2 & Hq2 & Hs2 & Hd2).
    + rewrite Hwb. exact Hlk.
    + exact Hpc.
    + exact Hqb.
    + exists s2. split; [exact Hrun|].
      rewrite Hw2, Hs2, Hd2, Hwb, Hstb, Hdb. auto.
Qed.

(** With [stop] set and the queue empty the worker returns, and the
    destructor, waiting in [join] for it, moves on. *)
Lemma exit_join_phase i w s :
  workers s !! i = Some w -> pc w = Waiting -> joinable w = true ->
  tasks s = [] -> stop s = true -> dtor s = Joining i ->
  exists s3,
    run [EvWorker i; EvDtor] s = Some s3
    /\ workers s3 = <[i := joined_worker]> (workers s)
    /\ tasks s3 = [] /\ stop s3 = true /\ dtor s3 = Joining (S i).
Proof.
  intros Hlk Hpc Hj Hq Hs Hd. simpl.
  assert (H1 : worker_step i s = Some (worker_exits i w s)).
  { unfold worker_step. rewrite Hlk, Hpc, Hq, Hs. reflexivity. }
  rewrite H1.
  assert (H2 : dtor_step (worker_exits i w s)
               = Some (dtor_joins i (worker_exits i w s))).
  { unfold dtor_step; simpl. rewrite Hd.
    rewrite (lookup_set_worker i i _ w) by exact Hlk.
    destruct (decide (i = i)); [|congruence]. simpl. rewrite Hj.
    reflexivity. }
  rewrite H2. eexists; split; [reflexivity|]. simpl.
  unfold set_worker. rewrite list_insert_insert_eq. auto.
Qed.

Lemma teardown_sched_cons i w (ws : list (worker Env)) qlen :
  teardown_sched i (w :: ws) qlen =
  (match pc w with Running _ => [EvWorker i] | _ => [] end)
    ++ concat (replicate qlen [EvWorker i; EvWorker i])
    ++ [EvWorker i; EvDtor]
    ++ teardown_sched (S i) ws 0.
Proof. reflexivity. Qed.

Lemma teardown_from (ws : list (worker Env)) :
  forall pre s,
    workers s = pre ++ ws -> dtor s = Joining (length pre) ->
    stop s = true -> Forall live ws ->
    exists s',
      run (teardown_sched (length pre) ws (length (tasks s))) s = Some s'
      /\ dtor s' = Destroyed.
Proof.
  induction ws as [|w ws IH]; intros pre s Hws Hd Hs Hlive.
  - simpl. unfold dtor_step. rewrite Hd, Hws, app_nil_r.
    rewrite (proj2 (lookup_ge_None pre (length pre))) by lia.
    eexists; split; reflexivity.
  - set (i := length pre) in *.
    apply Forall_cons in Hlive as [[Hj Hpc] Hlive].
    assert (Hlk : workers s !! i = Some w).
    { rewrite Hws. apply list_lookup_middle. reflexivity. }
    destruct (finish_phase i w s Hlk Hpc)
      as (s1 & Hr1 & Hw1 & Hq1 & Hs1 & Hd1).
    set (w1 := {| pc := Waiting; joinable := joinable w |} : worker Env).
    assert (Hlk1 : workers s1 !! i = Some w1).
    { rewrite Hw1, (lookup_set_worker i i _ w) by exact Hlk.
      destruct (decide (i = i)); [reflexivity|congruence]. }
    assert (Hpc1 : pc w1 = Waiting) by reflexivity.
    destruct (drain_phase i w1 (tasks s1) s1 Hlk1 Hpc1 (eq_refl _))
      as (s2 & Hr2 & Hw2 & Hq2 & Hs2 & Hd2).
    assert (Hlk2 : workers s2 !! i = Some w1) by congruence.
    assert (Hst2 : stop s2 = true) by congruence.
    assert (Hdt2 : dtor s2 = Joining i) by congruence.
    destruct (exit_join_phase i w1 s2 Hlk2 Hpc1 Hj Hq2 Hst2 Hdt2)
      as (s3 & Hr3 & Hw3 & Hq3 & Hs3 & Hd3).
    assert (Hws3 : workers s3 = (pre ++ [joined_worker]) ++ ws).
    { rewrite Hw3, Hw2, Hw1, Hws. unfold set_worker.
      rewrite list_insert_insert_eq.
      rewrite insert_app_r_alt by (unfold i; lia).
      unfold i. rewrite Nat.sub_diag. simpl.
      rewrite <- app_assoc. reflexivity. }
    assert (Hdt3 : dtor s3 = Joining (length (pre ++ [joined_worker]))).
    { rewrite Hd3, length_app. simpl. f_equal. unfold i. lia. }
    destruct (IH (pre ++ [joined_worker]) s3 Hws3 Hdt3 Hs3 Hlive)
      as (s' & Hr' & Hd').
    exists s'. split; [|exact Hd'].
    rewrite teardown_sched_cons. fold i.
    rewrite run_app, Hr1. rewrite run_app, <- Hq1, Hr2.
    rewrite run_app, Hr3.
    rewrite length_app in Hr'. simpl in Hr'.
    rewrite Nat.add_1_r, Hq3 in Hr'. exact Hr'.
Qed.

(** In that schedule only the workers and the destructor move: nobody
    else wakes a worker. *)
Lemma teardown_sched_quiet (ws : list (worker Env)) :
  forall i qlen, existsb is_wakeup (teardown_sched i ws qlen) = false.
Proof.
  assert (Hrep : forall i k,
             existsb is_wakeup
               (concat (replicate k [@EvWorker Env i; EvWorker i])) = false).
  { intros i k. induction k as [|k IH]; simpl; auto. }
  induction ws as [|w ws IH]; intros i qlen; [reflexivity|].
  rewrite teardown_sched_cons, !existsb_app, Hrep, IH.
  destruct (pc w); reflexivity.
Qed.

(** Whatever a pool that is in use is doing, a destructor entered now can
    run to its end: it sets [stop] and wakes every blocked worker, and, the
    callables being total, every worker gets to see [stop] with the queue
    empty. *)
Lemma teardown_completes n s :
  pool_inv n s -> dtor s = Alive ->
  exists s',
    run (EvDtor :: EvDtor
           :: teardown_sched 0 (wake <$> workers s) (length (tasks s))) s
      = Some s'
    /\ destroyed s' = true.
Proof.
  intros Hinv Hd. simpl. unfold dtor_step. rewrite Hd. simpl.
  destruct (teardown_from (wake <$> workers s) [] (dtor_notifies (dtor_begins s)))
    as (s' & Hrun & Hd'); try reflexivity.
  - pose proof (inv_dtor _ _ Hinv) as Hdi. unfold dtor_inv in Hdi.
    rewrite Hd in Hdi. destruct Hdi as (Hs & _ & _ & Hall).
    apply Forall_lookup. intros i w. rewrite lookup_wake.
    destruct (workers s !! i) as [w0|] eqn:Hlk; [|discriminate].
    intros [= <-]. destruct (pc_wake w0) as [Hp Hj].
    split; [rewrite Hj; eauto|]. rewrite Hp.
    pose proof (inv_workers _ _ Hinv _ _ Hlk) as Hok.
    unfold worker_ok in Hok. destruct (pc w0) eqn:Hpc; eauto.
    + destruct Hok; congruence.
    + contradiction.
  - exists s'. split; [exact Hrun|]. unfold destroyed. rewrite Hd'.
    reflexivity.
Qed.
End PoolTeardown.

(* ===================================================================== *)
(** ** The thread pool: tasks run once *)
(* ===================================================================== *)

Section PoolOnce.
Import Pool.
Context {Env : Type}.
Implicit Types (s : State Env) (w : worker Env) (t : task Env).

Lemma accepted_NoDup n s : pool_inv n s -> NoDup (accepted s).
Proof. intros H. rewrite (inv_ids _ _ H). apply NoDup_seq. Qed.

Lemma head_not_claimed n s t q :
  pool_inv n s -> tasks s = t :: q -> tid t ∉ claimed s.
Proof.
  intros Hinv Hq Hin. pose proof (accepted_NoDup _ _ Hinv) as Hnd.
  rewrite (inv_fifo _ _ Hinv), Hq in Hnd. simpl in Hnd.
  apply NoDup_app in Hnd as (_ & Hdisj & _).
  apply (Hdisj _ Hin). left.
Qed.

Lemma lookup_wake_running i (ws : list (worker Env)) w t :
  (wake <$> ws) !! i = Some w -> pc w = Running t -> ws !! i = Some w.
Proof.
  rewrite lookup_wake. destruct (ws !! i) as [w0|]; [|discriminate].
  intros [= <-]. unfold wake. destruct (pc w0) eqn:E; auto.
  simpl. discriminate.
Qed.

Lemma once_init n (e : Env) : once_inv (ThreadPool n e).
Proof.
  split; simpl.
  - constructor.
  - intros i w t Hw Hpc. apply lookup_replicate in Hw as [-> _].
    discriminate.
  - intros i j w w' t t' Hw Hpc. apply lookup_replicate in Hw as [-> _].
    discriminate.
  - intros id r H. rewrite lookup_nil in H. discriminate.
Qed.

(** A worker that holds no task changes position, to one in which it
    holds none. *)
Lemma once_set_worker i w p s s' :
  once_inv s -> workers s !! i = Some w ->
  (forall t, p <> Running t) ->
  workers s' = set_worker i p w (workers s) ->
  executed s' = executed s -> futures s' = futures s ->
  discarded s' = discarded s ->
  once_inv s'.
Proof.
  intros [Hnd Hrun Hsing Hrdy] Hlk Hp Hws Hx Hf Hdis.
  split; rewrite ?Hws, ?Hx, ?Hf, ?Hdis; auto.
  - intros j w' t'. rewrite (lookup_set_worker i j _ w) by exact Hlk.
    destruct (decide (i = j)); [|apply Hrun].
    intros [= <-]; simpl. intros Heq. destruct (Hp _ Heq).
  - intros a b wa wb ta tb.
    rewrite !(lookup_set_worker i _ _ w) by exact Hlk.
    destruct (decide (i = a));
      [intros [= <-]; simpl; intros Heq; destruct (Hp _ Heq)|].
    destruct (decide (i = b));
      [intros ? ? [= <-]; simpl; intros Heq; destruct (Hp _ Heq)|].
    apply Hsing.
Qed.

Lemma once_step n ev s s' :
  pool_inv n s -> once_inv s -> step ev s = Some s' -> once_inv s'.
Proof.
  intros Hinv Honce Hstep.
  destruct (is_wakeup ev) eqn:Hwk.
  { destruct (wakeup_step_inv _ _ _ Hwk Hstep)
      as (k & [->|(i & w & Hlk & Hpc & ->)]).
    - destruct Honce; split; assumption.
    - eapply (once_set_worker i w Waiting s); eauto; discriminate. }
  pose proof Honce as [Hnd Hrun Hsing Hrdy].
  destruct ev as [f|i| | |i|i]; try discriminate.
  - apply enqueue_step_inv in Hstep as [_ [[_ ->]|[Hs ->]]];
      [split; assumption|].
    split; simpl; auto.
    intros id r Hlk. apply lookup_app_Some in Hlk as [Hlk|[_ Hlk]];
      [eauto|].
    destruct (id - length (futures s)) as [|k]; simpl in Hlk;
      [discriminate|rewrite lookup_nil in Hlk; discriminate].
  - apply worker_step_inv in Hstep
      as (w & Hlk & [(Hpc & Hs & Hq & ->)
                    |[(t & q & Hpc & Hq & ->)
                     |[(t & Hpc & ->)|(Hpc & Hs & Hq & ->)]]]).
    + eapply (once_set_worker i w Exited s); eauto; discriminate.
    + assert (Hfresh : tid t ∉ claimed s) by (eapply head_not_claimed; eauto).
      split; simpl; auto.
      * intros j w' t'. rewrite (lookup_set_worker i j _ w) by exact Hlk.
        destruct (decide (i = j)); [|apply Hrun].
        intros [= <-]; simpl. intros [= <-] Hin.
        apply Hfresh, (inv_executed _ _ Hinv), Hin.
      * intros a b wa wb ta tb.
        rewrite !(lookup_set_worker i _ _ w) by exact Hlk.
        destruct (decide (i = a)) as [<-|Ha], (decide (i = b)) as [<-|Hb];
          [reflexivity| | |apply Hsing].
        -- intros [= <-]; simpl. intros [= <-] Hb' Hpb Heq. exfalso.
           apply Hfresh. rewrite Heq. eapply inv_running; eauto.
        -- intros Ha' Hpa [= <-]; simpl. intros [= <-] Heq. exfalso.
           apply Hfresh. rewrite <- Heq. eapply inv_running; eauto.
    + rewrite worker_runs_eq.
      assert (Hnot : tid t ∉ executed s) by (eapply Hrun; eauto).
      split; simpl.
      * apply NoDup_app. split; [exact Hnd|split; [|apply NoDup_singleton]].
        intros x Hx Hx'. apply list_elem_of_singleton in Hx'. congruence.
      * intros j w' t'. rewrite (lookup_set_worker i j _ w) by exact Hlk.
        destruct (decide (i = j)); [intros [= <-]; discriminate|].
        intros Hj Hpj Hin. apply elem_of_app in Hin as [Hin|Hin].
        -- eapply Hrun; eauto.
        -- apply list_elem_of_singleton in Hin.
           assert (j = i) by (eapply Hsing; eauto). congruence.
      * intros a b wa wb ta tb.
        rewrite !(lookup_set_worker i _ _ w) by exact Hlk.
        destruct (decide (i = a)); [intros [= <-]; discriminate|].
        destruct (decide (i = b)); [intros ? ? [= <-]; discriminate|].
        apply Hsing.
      * intros id r Hlk'.
        apply list_lookup_insert_Some in Hlk' as [(-> & _ & _)|[_ Hold]].
        -- left. apply elem_of_app. right. apply list_elem_of_singleton.
           reflexivity.
        -- destruct (Hrdy _ _ Hold) as [?|?]; [left|right; assumption].
           apply elem_of_app. auto.
    + eapply (once_set_worker i w Sleeping s); eauto; discriminate.
  - simpl in Hstep. destruct (destroyed s); [discriminate|].
    apply WaitForTasks_step_inv in Hstep as [p ->]. split; assumption.
  - apply dtor_step_inv in Hstep
      as [(Hd & ->)|[(k & Hd & Hlk & ->)
                    |[(k & w & Hd & Hlk & Hj & Hpc & ->)
                     |[(k & w & Hd & Hlk & Hj & ->)|(Hd & ->)]]]];
      try (split; assumption).
    + (* the queue is destroyed *)
      split; simpl; auto.
      intros id r. rewrite list_lookup_imap.
      destruct (futures s !! id) as [st|] eqn:Hf; [|discriminate].
      simpl. unfold abandon. destruct (queued (tasks s) id) eqn:Hq.
      * destruct st as [|r'].
        -- intros [= <-]. right. split; [|reflexivity].
           apply elem_of_app. right. apply queued_spec. exact Hq.
        -- intros [= <-]. destruct (Hrdy _ _ Hf) as [?|[? ?]]; [auto|].
           right. split; [apply elem_of_app|]; auto.
      * intros [= ->]. destruct (Hrdy _ _ Hf) as [?|[? ?]]; [auto|].
        right. split; [apply elem_of_app|]; auto.
    + assert (Hlook : forall j,
                 <[k := joined_worker]> (workers s) !! j =
                 if decide (k = j) then Some joined_worker
                 else workers s !! j).
      { intros j. rewrite list_lookup_insert. apply lookup_lt_Some in Hlk.
        destruct (decide (k = j)), (decide (k = j /\ k < length (workers s)));
          try tauto; lia. }
      split; simpl; auto; fold (@joined_worker Env).
      * intros j w' t'. rewrite Hlook.
        destruct (decide (k = j)); [intros [= <-]; discriminate|apply Hrun].
      * intros a b wa wb ta tb. rewrite !Hlook.
        destruct (decide (k = a)); [intros [= <-]; discriminate|].
        destruct (decide (k = b)); [intros ? ? [= <-]; discriminate|].
        apply Hsing.
    + (* notify_all *)
      split; simpl; auto.
      * intros j w' t' Hj Hp. eapply Hrun; eauto.
        eapply lookup_wake_running; eauto.
      * intros a b wa wb ta tb Ha Hpa Hb Hpb.
        eapply Hsing; eauto; eapply lookup_wake_running; eauto.
Qed.

Lemma once_reachable n e s : reachable n e s -> once_inv s.
Proof.
  intros Hreach.
  assert (H : pool_inv n s /\ once_inv s); [|tauto].
  revert s Hreach. apply reachable_ind.
  - split; [apply inv_init|apply once_init].
  - intros ev s0 s1 [H1 H2] Hstep.
    split; [eapply inv_step; eauto|eapply once_step; eauto].
Qed.
End PoolOnce.

(* ===================================================================== *)
(** ** The thread pool: the calls made are those of the submitted callables *)
(* ===================================================================== *)

Section PoolCalls.
Import Pool.
Context {Env : Type}.
Implicit Types (s : State Env) (w : worker Env) (t : task Env).

Lemma replay_snoc (fs : list (callable Env)) ids id e :
  replay fs (ids ++ [id]) e = replay_step fs (replay fs ids e) id.
Proof. unfold replay. rewrite fold_left_app. reflexivity. Qed.

(** Only the callables whose ids occur matter. *)
Lemma replay_ext (fs fs' : list (callable Env)) ids e :
  (forall id, id ∈ ids -> fs !! id = fs' !! id) ->
  replay fs ids e = replay fs' ids e.
Proof.
  unfold replay. generalize (e, @nil (nat * outcome)).
  induction ids as [|id ids IH]; intros acc H; simpl; [reflexivity|].
  assert (replay_step fs acc id = replay_step fs' acc id) as ->.
  { unfold replay_step. rewrite (H id) by left. reflexivity. }
  apply IH. intros id' Hin. apply H. right. exact Hin.
Qed.

Lemma calls_init n (e : Env) : calls_inv e (ThreadPool n e).
Proof.
  split; simpl; try reflexivity.
  - intros t Ht. inversion Ht.
  - intros i w t Hw Hpc. apply lookup_replicate in Hw as [-> _].
    discriminate.
  - intros id r H. inversion H.
Qed.

(** Steps that call nothing and submit nothing. *)
Lemma calls_frame e s s' :
  calls_inv e s ->
  submitted s' = submitted s -> executed s' = executed s ->
  env s' = env s -> length (futures s') = length (futures s) ->
  (forall id r, futures s !! id = Some (Ready r) ->
                futures s' !! id = Some (Ready r)) ->
  (forall t, t ∈ tasks s' -> submitted s !! tid t = Some (work t)) ->
  (forall i w t, workers s' !! i = Some w -> pc w = Running t ->
                 submitted s !! tid t = Some (work t)) ->
  calls_inv e s'.
Proof.
  intros [Hl Hq Hr He Hi Hf] Es Ex Ee El Ef Eq Er.
  assert (Hc : calls e s' = calls e s)
    by (unfold calls; rewrite Es, Ex; reflexivity).
  split; rewrite ?Hc, ?Es, ?Ex, ?Ee, ?El; auto.
Qed.

Lemma calls_step n e ev s s' :
  pool_inv n s -> once_inv s -> calls_inv e s -> step ev s = Some s' ->
  calls_inv e s'.
Proof.
  intros Hinv Honce Hcalls Hstep.
  pose proof Hcalls as [Hl Hq Hr He Hi Hf].
  assert (Hset : forall i w p,
             workers s !! i = Some w -> (forall t, p <> Running t) ->
             forall j w' t,
               set_worker i p w (workers s) !! j = Some w' ->
               pc w' = Running t ->
               submitted s !! tid t = Some (work t)).
  { intros i w p Hlk Hp j w' t.
    rewrite (lookup_set_worker i j _ w) by exact Hlk.
    destruct (decide (i = j)); [|apply Hr].
    intros [= <-]; simpl. intros Heq. destruct (Hp _ Heq). }
  destruct (is_wakeup ev) eqn:Hwk.
  { destruct (wakeup_step_inv _ _ _ Hwk Hstep)
      as (k & [->|(i & w & Hlk & Hpc & ->)]).
    - apply (calls_frame e s); auto.
    - apply (calls_frame e s); auto. simpl.
      apply (Hset i w Waiting Hlk). discriminate. }
  destruct ev as [f|i| | |i|i]; try discriminate.
  - apply enqueue_step_inv in Hstep as [_ [[_ ->]|[Hs ->]]];
      [exact Hcalls|].
    assert (Hlt : forall id, id ∈ executed s -> id < length (submitted s)).
    { intros id Hid. rewrite Hl. eapply inv_claimed_lt; eauto.
      apply (inv_executed _ _ Hinv). exact Hid. }
    assert (Hc : calls e (push_task f s) = calls e s).
    { unfold calls; simpl. apply replay_ext. intros id Hid.
      apply lookup_app_l. auto. }
    split; rewrite ?Hc; simpl; auto.
    + rewrite !length_app, Hl. reflexivity.
    + intros t Ht. apply elem_of_app in Ht as [Ht|Ht].
      * apply lookup_app_l_Some. auto.
      * apply list_elem_of_singleton in Ht as ->. simpl.
        rewrite <- Hl, lookup_app_r, Nat.sub_diag by lia. reflexivity.
    + intros i w t Hw Hp. apply lookup_app_l_Some. eauto.
    + intros id r Hin. apply lookup_app_l_Some. auto.
  - apply worker_step_inv in Hstep
      as (w & Hlk & [(Hpc & Hs & Hq' & ->)
                    |[(t & q & Hpc & Hq' & ->)
                     |[(t & Hpc & ->)|(Hpc & Hs & Hq' & ->)]]]).
    + apply (calls_frame e s); auto. simpl.
      apply (Hset i w Exited Hlk). discriminate.
    + assert (Ht : submitted s !! tid t = Some (work t)).
      { apply Hq. rewrite Hq'. left. }
      apply (calls_frame e s); auto; simpl.
      * intros t' Ht'. apply Hq. rewrite Hq'. right. exact Ht'.
      * intros j w' t'. rewrite (lookup_set_worker i j _ w) by exact Hlk.
        destruct (decide (i = j)); [|apply Hr].
        intros [= <-]; simpl. intros [= <-]. exact Ht.
    + (* the call *)
      assert (Ht : submitted s !! tid t = Some (work t)) by eauto.
      assert (Hlt : tid t < length (futures s)).
      { eapply inv_claimed_lt; eauto. eapply inv_running; eauto. }
      assert (Hnot : tid t ∉ executed s)
        by (eapply (once_running _ Honce); eauto).
      rewrite worker_runs_eq.
      assert (Hc : calls e
                     {| workers := set_worker i Waiting w (workers s);
                        tasks := tasks s; stop := stop s; dtor := dtor s;
                        waiter := waiter s; notifying := notifying s;
                        futures := <[tid t := Ready (snd (work t (env s)))]>
                                     (futures s);
                        env := fst (work t (env s));
                        submitted := submitted s;
                        accepted := accepted s; claimed := claimed s;
                        executed := executed s ++ [tid t];
                        discarded := discarded s; joined := joined s |}
                   = (fst (work t (env s)),
                      snd (calls e s) ++ [(tid t, snd (work t (env s)))])).
      { unfold calls; simpl. rewrite replay_snoc. unfold replay_step.
        rewrite Ht. fold (calls e s). rewrite <- He. reflexivity. }
      split; rewrite ?Hc; simpl; auto.
      * rewrite length_insert. exact Hl.
      * apply (Hset i w Waiting Hlk). discriminate.
      * rewrite fmap_app, Hi. reflexivity.
      * intros id r Hin. apply elem_of_app in Hin as [Hin|Hin].
        -- rewrite list_lookup_insert_ne; [auto|].
           intros Heq. apply Hnot. rewrite <- Hi, Heq.
           apply (list_elem_of_fmap_2 fst) in Hin. exact Hin.
        -- apply list_elem_of_singleton in Hin. injection Hin as -> ->.
           apply list_lookup_insert_eq. exact Hlt.
    + apply (calls_frame e s); auto. simpl.
      apply (Hset i w Sleeping Hlk). discriminate.
  - simpl in Hstep. destruct (destroyed s); [discriminate|].
    apply WaitForTasks_step_inv in Hstep as [p ->].
    apply (calls_frame e s); auto.
  - apply dtor_step_inv in Hstep
      as [(Hd & ->)|[(k & Hd & Hlk & ->)
                    |[(k & w & Hd & Hlk & Hj & Hpc & ->)
                     |[(k & w & Hd & Hlk & Hj & ->)|(Hd & ->)]]]];
      apply (calls_frame e s); auto; simpl.
    + apply length_imap.
    + intros id r Hlk'. rewrite list_lookup_imap, Hlk'. simpl.
      rewrite abandon_ready. reflexivity.
    + intros t Ht. inversion Ht.
    + intros j w' t. rewrite list_lookup_insert.
      destruct (decide (k = j /\ k < length (workers s)));
        [intros [= <-]; discriminate|apply Hr].
    + intros j w' t Hj Hp. eapply Hr; eauto.
      eapply lookup_wake_running; eauto.
Qed.

Lemma calls_reachable n e s : reachable n e s -> calls_inv e s.
Proof.
  intros Hreach.
  assert (H : (pool_inv n s /\ once_inv s) /\ calls_inv e s); [|tauto].
  revert s Hreach. apply reachable_ind.
  - split; [split; [apply inv_init|apply once_init]|apply calls_init].
  - intros ev s0 s1 [[H1 H2] H3] Hstep.
    split; [split; [eapply inv_step; eauto|eapply once_step; eauto]|].
    eapply calls_step; eauto.
Qed.

(** What the future of a completed task holds is the outcome the calls
    give for it. *)
Lemma calls_outcome n e s id :
  reachable n e s -> id ∈ executed s ->
  exists f r,
    submitted s !! id = Some f
    /\ (id, r) ∈ snd (calls e s)
    /\ future_get id s = Some r.
Proof.
  intros Hreach Hid.
  pose proof (inv_reachable _ _ _ Hreach) as Hinv.
  pose proof (calls_reachable _ _ _ Hreach) as Hcalls.
  assert (Hlt : id < length (submitted s)).
  { rewrite (calls_length _ _ Hcalls). eapply inv_claimed_lt; eauto.
    apply (inv_executed _ _ Hinv). exact Hid. }
  destruct (lookup_lt_is_Some_2 _ _ Hlt) as [f Hf].
  rewrite <- (calls_ids _ _ Hcalls) in Hid.
  apply list_elem_of_fmap in Hid as ([id' r] & -> & Hin). simpl in *.
  exists f, r. split; [exact Hf|split; [exact Hin|]].
  unfold future_get. rewrite (calls_futures _ _ Hcalls _ _ Hin).
  reflexivity.
Qed.
End PoolCalls.

(* ===================================================================== *)
(** ** The thread pool: submission, order, teardown *)
(* ===================================================================== *)

Section PoolTheorems.
Import Pool.
Context {Env : Type}.
Implicit Types (s : State Env) (w : worker Env) (t : task Env).

(** Nothing clears [stop], and nothing is appended once it is set. *)
Lemma stop_step ev s s' :
  stop s = true -> step ev s = Some s' ->
  stop s' = true /\ accepted s' = accepted s
  /\ submitted s' = submitted s.
Proof.
  intros Hs Hstep.
  destruct (is_wakeup ev) eqn:Hwk.
  { destruct (wakeup_step_inv _ _ _ Hwk Hstep)
      as (k & [->|(i & w & Hlk & Hpc & ->)]); simpl; auto. }
  destruct ev as [f|i| | |i|i]; try discriminate.
  - apply enqueue_step_inv in Hstep as [_ [[_ ->]|[Hs' ->]]];
      [auto|congruence].
  - apply worker_step_inv in Hstep
      as (w & Hlk & [(Hpc & _ & Hq & ->)
                    |[(t & q & Hpc & Hq & ->)
                     |[(t & Hpc & ->)|(Hpc & _ & Hq & ->)]]]);
      rewrite ?worker_runs_eq; simpl; auto.
  - simpl in Hstep. destruct (destroyed s); [discriminate|].
    apply WaitForTasks_step_inv in Hstep as [p ->]. simpl; auto.
  - apply dtor_step_inv in Hstep
      as [(Hd & ->)|[(k & Hd & Hlk & ->)
                    |[(k & w & Hd & Hlk & Hj & Hpc & ->)
                     |[(k & w & Hd & Hlk & Hj & ->)|(Hd & ->)]]]];
      simpl; auto.
Qed.

Lemma stop_run sched s s' :
  stop s = true -> run sched s = Some s' ->
  stop s' = true /\ accepted s' = accepted s
  /\ submitted s' = submitted s.
Proof.
  revert s. induction sched as [|ev sched IH]; intros s Hs; simpl.
  - intros [= <-]; auto.
  - destruct (step ev s) as [s1|] eqn:E; [|discriminate]. intros Hrun.
    destruct (stop_step _ _ _ Hs E) as (Hs1 & Ha1 & Hb1).
    destruct (IH _ Hs1 Hrun) as (Hs' & Ha' & Hb').
    split; [|split]; congruence.
Qed.

(** C1.  [Enqueue] on a pool whose [stop] flag is set throws
    [std::runtime_error("Enqueue on stopped ThreadPool")] and returns no
    future; the pool, and with it the queue, is exactly as before the
    call; and however the threads go on afterwards, the tasks accepted
    remain those accepted before the call and only those are ever
    executed. *)
Theorem Enqueue_after_stop_rejected n e s (f : callable Env) :
  reachable n e s -> stop s = true ->
  Enqueue f s = (s, inl "Enqueue on stopped ThreadPool"%string)
  /\ tasks (fst (Enqueue f s)) = tasks s
  /\ forall sched s',
      run sched (fst (Enqueue f s)) = Some s' ->
      stop s' = true
      /\ accepted s' = accepted s
      /\ forall id, id ∈ executed s' -> id ∈ accepted s.
Proof.
  intros Hreach Hstop.
  assert (HE : Enqueue f s = (s, inl "Enqueue on stopped ThreadPool"%string)).
  { unfold Enqueue. rewrite Hstop. reflexivity. }
  rewrite HE; simpl. split; [reflexivity|split; [reflexivity|]].
  intros sched s' Hrun.
  destruct (stop_run _ _ _ Hstop Hrun) as (Hs' & Ha' & _).
  split; [exact Hs'|split; [exact Ha'|]].
  intros id Hid.
  assert (Hinv : pool_inv n s')
    by (apply (inv_reachable n e); eapply reachable_run; eauto).
  rewrite <- Ha', (inv_fifo _ _ Hinv). apply elem_of_app. left.
  apply (inv_executed _ _ Hinv). exact Hid.
Qed.

(** On a pool that is not stopping, [Enqueue] appends the task at the back
    of the queue and returns the future of a new shared state. *)
Lemma Enqueue_appends s (f : callable Env) :
  stop s = false ->
  Enqueue f s = (push_task f s, inr (length (futures s)))
  /\ tasks (push_task f s)
     = tasks s ++ [{| tid := length (futures s); work := f |}]
  /\ accepted (push_task f s) = accepted s ++ [length (futures s)]
  /\ future_get (length (futures s)) (push_task f s) = None.
Proof.
  intros Hs. unfold Enqueue. rewrite Hs. repeat split.
  unfold future_get; simpl.
  rewrite lookup_app_r, Nat.sub_diag by lia. reflexivity.
Qed.

(** What [stop] being clear says inside the model: the destructor has not
    been entered. *)
Lemma stop_iff_dtor n s :
  pool_inv n s -> (stop s = false <-> dtor s = Alive).
Proof.
  intros Hinv. pose proof (inv_dtor _ _ Hinv) as Hd. unfold dtor_inv in Hd.
  destruct (dtor s); split; intros H; try discriminate;
    try tauto; destruct Hd; congruence.
Qed.

(** C3.  The queue is first-in first-out: if [a] was appended before [b]
    (position [i] before position [j] in the order of the critical
    sections of [Enqueue]) and [b] has been popped by a worker, then [a]
    was popped before it. *)
Theorem tasks_claimed_in_submission_order n e s i j a b q :
  reachable n e s ->
  i < j -> accepted s !! i = Some a -> accepted s !! j = Some b ->
  claimed s !! q = Some b ->
  exists p, p < q /\ claimed s !! p = Some a.
Proof.
  intros Hreach Hij Ha Hb Hq.
  pose proof (inv_reachable _ _ _ Hreach) as Hinv.
  pose proof (inv_fifo _ _ Hinv) as Hf.
  assert (Hqa : accepted s !! q = Some b).
  { rewrite Hf. apply lookup_app_l_Some. exact Hq. }
  assert (Hnd : NoDup (accepted s)).
  { rewrite (inv_ids _ _ Hinv). apply NoDup_seq. }
  assert (j = q) as -> by (eapply NoDup_lookup; eauto).
  exists i. split; [exact Hij|].
  apply lookup_lt_Some in Hq.
  rewrite Hf, lookup_app_l in Ha by lia. exact Ha.
Qed.

(** The order of the queue itself: [Enqueue] appends at the back, a
    worker pops the front, and what is left at the end is destroyed with
    the queue. *)
Lemma queue_discipline n e s :
  reachable n e s ->
  accepted s = claimed s ++ (tid <$> tasks s) ++ discarded s
  /\ NoDup (accepted s).
Proof.
  intros Hreach. pose proof (inv_reachable _ _ _ Hreach) as Hinv.
  split; [apply (inv_fifo _ _ Hinv)|].
  rewrite (inv_ids _ _ Hinv). apply NoDup_seq.
Qed.

(** When a worker gets to [Exited], it is by its own step, taken with
    [stop] set and the queue empty. *)
Lemma worker_exit_observes ev s s' i w w' :
  step ev s = Some s' ->
  workers s !! i = Some w -> pc w <> Exited ->
  workers s' !! i = Some w' -> pc w' = Exited ->
  ev = EvWorker i /\ stop s = true /\ tasks s = [].
Proof.
  intros Hstep Hlk Hpc Hlk' Hpc'.
  destruct (is_wakeup ev) eqn:Hwk.
  { destruct (wakeup_step_inv _ _ _ Hwk Hstep)
      as (k & [->|(j & wj & Hj & Hpj & ->)]); simpl in Hlk';
      [congruence|].
    rewrite (lookup_set_worker j i _ wj) in Hlk' by exact Hj.
    destruct (decide (j = i)); [|congruence].
    injection Hlk' as <-. discriminate. }
  destruct ev as [f|j| | |j|j]; try discriminate.
  - apply enqueue_step_inv in Hstep as [_ [[_ ->]|[Hs' ->]]];
      simpl in Hlk'; congruence.
  - apply worker_step_inv in Hstep
      as (wj & Hj & [(Hwt & Hs & Hq & ->)
                    |[(t & q & Hwt & Hq & ->)
                     |[(t & Hwt & ->)|(Hwt & Hs & Hq & ->)]]]);
      rewrite ?worker_runs_eq in Hlk'; simpl in Hlk';
      rewrite (lookup_set_worker j i _ wj) in Hlk' by exact Hj;
      destruct (decide (j = i)) as [->|]; try congruence;
      try (injection Hlk' as <-; simpl in Hpc'; discriminate).
    auto.
  - simpl in Hstep. destruct (destroyed s); [discriminate|].
    apply WaitForTasks_step_inv in Hstep as [p ->]. simpl in Hlk'. congruence.
  - apply dtor_step_inv in Hstep
      as [(Hd & ->)|[(k & Hd & Hk & ->)
                    |[(k & wk & Hd & Hk & Hj & Hwk' & ->)
                     |[(k & wk & Hd & Hk & Hj & ->)|(Hd & ->)]]]];
      simpl in Hlk'; try congruence.
    + rewrite list_lookup_insert in Hlk'.
      destruct (decide (k = i /\ k < length (workers s))) as [[-> _]|];
        congruence.
    + rewrite lookup_wake, Hlk in Hlk'. injection Hlk' as <-.
      destruct (pc_wake w) as [Hp _]. rewrite Hp in Hpc'.
      destruct (pc w); congruence.
Qed.

(** Once the destructor has returned: [stop] is set, every worker has
    returned and was joined once, in order, and the queue is gone; with at
    least one worker nothing was destroyed with the queue and every
    accepted task was executed. *)
Lemma destroyed_state n e s :
  reachable n e s -> dtor s = Destroyed ->
  stop s = true
  /\ joined s = seq 0 n
  /\ (forall i w, workers s !! i = Some w -> w = joined_worker)
  /\ tasks s = []
  /\ (1 <= n ->
      discarded s = []
      /\ forall id, id ∈ accepted s -> id ∈ executed s).
Proof.
  intros Hreach Hd. pose proof (inv_reachable _ _ _ Hreach) as Hinv.
  pose proof (inv_dtor _ _ Hinv) as Hdi. unfold dtor_inv in Hdi.
  rewrite Hd in Hdi. destruct Hdi as (Hs & Hj & Hq & Hdis & Hall).
  split; [exact Hs|split; [exact Hj|split; [exact Hall|split; [exact Hq|]]]].
  intros Hn. split; [auto|]. intros id Hid.
  rewrite (inv_fifo _ _ Hinv), Hq, (Hdis Hn) in Hid. simpl in Hid.
  rewrite app_nil_r in Hid.
  destruct (inv_claimed _ _ Hinv _ Hid)
    as [?|(i & w & t & Hlk & Hpc & _)]; [assumption|].
  rewrite (Hall _ _ Hlk) in Hpc. discriminate.
Qed.

(** The destructor's first two steps: [stop] is set, then every blocked
    worker is woken. *)
Lemma dtor_wakes_all s :
  dtor s = Alive ->
  exists s1 s2,
    step EvDtor s = Some s1 /\ stop s1 = true /\ workers s1 = workers s
    /\ tasks s1 = tasks s
    /\ step EvDtor s1 = Some s2
    /\ workers s2 = wake <$> workers s
    /\ forall i w, workers s2 !! i = Some w -> pc w <> Sleeping.
Proof.
  intros Hd. exists (dtor_begins s), (dtor_notifies (dtor_begins s)).
  simpl. unfold dtor_step. rewrite Hd. simpl.
  repeat (split; [reflexivity|]).
  intros i w. rewrite lookup_wake.
  destruct (workers s !! i) as [w0|]; [|discriminate].
  intros [= <-]. destruct (pc_wake w0) as [-> _].
  destruct (pc w0); discriminate.
Qed.

(** C2.  A worker leaves its loop only by a step of its own taken with
    [stop] set and the queue empty.  [~ThreadPool] first sets [stop], then
    wakes all workers: none of them is blocked on the condition variable
    after its [notify_all], and none blocks again while the destructor
    joins.  Entered on a pool in use, the destructor can always run to its
    end without anybody else waking a worker.  And when it has returned on a
    pool with at least one worker, [stop] is set, every worker has returned
    and was joined, the queue is empty, no task was destroyed with the
    queue, and every task that was accepted has been executed: the callable
    handed to [Enqueue] was called, its outcome is what its future
    delivers, and the environment is the one these calls leave. *)
Theorem teardown_is_graceful n e s :
  1 <= n -> reachable n e s ->
  (forall ev s' i w w',
      step ev s = Some s' ->
      workers s !! i = Some w -> pc w <> Exited ->
      workers s' !! i = Some w' -> pc w' = Exited ->
      ev = EvWorker i /\ stop s = true /\ tasks s = [])
  /\ (dtor s = Alive ->
      exists s1 s2,
        step EvDtor s = Some s1 /\ stop s1 = true
        /\ step EvDtor s1 = Some s2
        /\ forall i w, workers s2 !! i = Some w -> pc w <> Sleeping)
  /\ (forall k i w,
        dtor s = Joining k -> workers s !! i = Some w -> pc w <> Sleeping)
  /\ (dtor s = Alive ->
      exists sched s',
        existsb is_wakeup sched = false
        /\ run (EvDtor :: sched) s = Some s' /\ dtor s' = Destroyed)
  /\ (dtor s = Destroyed ->
      stop s = true
      /\ joined s = seq 0 n
      /\ (forall i w, workers s !! i = Some w -> pc w = Exited)
      /\ tasks s = []
      /\ discarded s = []
      /\ env s = fst (calls e s)
      /\ forall id, id ∈ accepted s ->
                    id ∈ executed s
                    /\ exists f r,
                        submitted s !! id = Some f
                        /\ (id, r) ∈ snd (calls e s)
                        /\ future_get id s = Some r).
Proof.
  intros Hn Hreach.
  pose proof (inv_reachable _ _ _ Hreach) as Hinv.
  split; [|split; [|split; [|split]]].
  - intros ev s' i w w'. apply worker_exit_observes.
  - intros Hd.
    destruct (dtor_wakes_all s Hd)
      as (s1 & s2 & H1 & Hs1 & _ & _ & H2 & _ & Hall).
    exists s1, s2. auto.
  - intros k i w Hd Hlk.
    pose proof (inv_dtor _ _ Hinv) as Hdi. unfold dtor_inv in Hdi.
    rewrite Hd in Hdi. destruct Hdi as (_ & _ & _ & _ & Hall).
    apply (Hall _ _ Hlk).
  - intros Hd.
    destruct (teardown_completes n s Hinv Hd) as (s' & Hrun & Hdes).
    exists (EvDtor :: teardown_sched 0 (wake <$> workers s)
                        (length (tasks s))), s'.
    split; [apply teardown_sched_quiet|split; [exact Hrun|]].
    unfold destroyed in Hdes. destruct (dtor s'); congruence.
  - intros Hd.
    destruct (destroyed_state _ _ _ Hreach Hd)
      as (Hs & Hj & Hall & Hq & Hrest).
    destruct (Hrest Hn) as [Hdis Hacc].
    split; [exact Hs|split; [exact Hj|split; [|split; [exact Hq|]]]].
    { intros i w Hlk. rewrite (Hall _ _ Hlk). reflexivity. }
    split; [exact Hdis|].
    split; [apply (calls_env _ _ (calls_reachable _ _ _ Hreach))|].
    intros id Hid. split; [auto|].
    apply (calls_outcome n); auto.
Qed.
End PoolTheorems.

(* ===================================================================== *)
(** ** The thread pool: failing tasks, pool size, WaitForTasks *)
(* ===================================================================== *)

Section PoolTheorems2.
Import Pool.
Context {Env : Type}.
Implicit Types (s : State Env) (w : worker Env) (t : task Env).

Lemma future_get_insert id r s s' :
  futures s' = <[id := Ready r]> (futures s) ->
  id < length (futures s) ->
  future_get id s' = Some r.
Proof.
  intros Hf Hlt. unfold future_get.
  rewrite Hf, list_lookup_insert_eq by exact Hlt. reflexivity.
Qed.

Lemma future_get_insert_ne id id' r s s' :
  futures s' = <[id' := Ready r]> (futures s) ->
  id' <> id ->
  future_get id s' = future_get id s.
Proof.
  intros Hf Hne. unfold future_get.
  rewrite Hf, list_lookup_insert_ne by exact Hne. reflexivity.
Qed.

(** No exception ever leaves a worker's thread function. *)
Lemma no_worker_crashes n e s i w x :
  reachable n e s -> workers s !! i = Some w -> pc w <> Crashed x.
Proof.
  intros Hreach Hlk Hpc.
  pose proof (inv_workers _ _ (inv_reachable _ _ _ Hreach) _ _ Hlk) as Hok.
  unfold worker_ok in Hok. rewrite Hpc in Hok. exact Hok.
Qed.

(** A worker holding a task makes the call: the outcome, whichever it is,
    is in the task's future and the worker is back at the top of its
    loop. *)
Lemma worker_runs_delivers n e s i w t :
  reachable n e s -> workers s !! i = Some w -> pc w = Running t ->
  exists s1,
    worker_step i s = Some s1
    /\ reachable n e s1
    /\ future_get (tid t) s1 = Some (snd (work t (env s)))
    /\ (forall id, id <> tid t -> future_get id s1 = future_get id s)
    /\ workers s1 !! i = Some {| pc := Waiting; joinable := joinable w |}
    /\ tasks s1 = tasks s /\ stop s1 = stop s
    /\ env s1 = fst (work t (env s))
    /\ executed s1 = executed s ++ [tid t].
Proof.
  intros Hreach Hlk Hpc.
  pose proof (inv_reachable _ _ _ Hreach) as Hinv.
  assert (Hstep : worker_step i s = Some (worker_runs i w t s)).
  { unfold worker_step. rewrite Hlk, Hpc. reflexivity. }
  exists (worker_runs i w t s). split; [exact Hstep|].
  split; [apply (reachable_step n e (EvWorker i) s); assumption|].
  rewrite worker_runs_eq. split; [|split; [|split]].
  - eapply future_get_insert; [reflexivity|].
    eapply inv_claimed_lt; eauto. eapply inv_running; eauto.
  - intros id Hne. eapply future_get_insert_ne; [reflexivity|congruence].
  - simpl. rewrite (lookup_set_worker i i _ w) by exact Hlk.
    destruct (decide (i = i)); [reflexivity|congruence].
  - simpl. auto.
Qed.

(** A waiting worker pops the front of a non-empty queue, whether or not
    [stop] is set. *)
Lemma worker_claims_front n e s i w t q :
  reachable n e s -> workers s !! i = Some w -> pc w = Waiting ->
  tasks s = t :: q ->
  exists s1,
    worker_step i s = Some s1
    /\ reachable n e s1
    /\ workers s1 !! i = Some {| pc := Running t; joinable := joinable w |}
    /\ tasks s1 = q /\ env s1 = env s /\ futures s1 = futures s
    /\ executed s1 = executed s
    /\ claimed s1 = claimed s ++ [tid t].
Proof.
  intros Hreach Hlk Hpc Hq.
  assert (Hstep : worker_step i s = Some (worker_claims i w t q s)).
  { unfold worker_step. rewrite Hlk, Hpc, Hq. simpl.
    rewrite orb_true_r, andb_false_r. reflexivity. }
  exists (worker_claims i w t q s). split; [exact Hstep|].
  split; [apply (reachable_step n e (EvWorker i) s); assumption|].
  simpl. rewrite (lookup_set_worker i i _ w) by exact Hlk.
  destruct (decide (i = i)); [auto 10|congruence].
Qed.

(** C4.  When the callable of the task a worker holds throws, the
    exception ends up in that task's future ([get] rethrows it), the
    worker is back waiting at the top of its loop, no worker has crashed,
    and the queue is untouched; the next task in the queue, if any, is
    then popped and run by that worker as usual and its own outcome is
    what its future delivers. *)
Theorem task_exception_isolated n e s i w t x :
  reachable n e s -> workers s !! i = Some w -> pc w = Running t ->
  snd (work t (env s)) = Threw x ->
  exists s1,
    worker_step i s = Some s1
    /\ future_get (tid t) s1 = Some (Threw x)
    /\ workers s1 !! i = Some {| pc := Waiting; joinable := joinable w |}
    /\ (forall j wj y, workers s1 !! j = Some wj -> pc wj <> Crashed y)
    /\ tasks s1 = tasks s /\ stop s1 = stop s
    /\ forall t2 q,
        tasks s = t2 :: q ->
        exists s2 s3,
          worker_step i s1 = Some s2 /\ worker_step i s2 = Some s3
          /\ workers s2 !! i
             = Some {| pc := Running t2; joinable := joinable w |}
          /\ tasks s3 = q
          /\ executed s3 = executed s ++ [tid t; tid t2]
          /\ future_get (tid t2) s3 = Some (snd (work t2 (env s1)))
          /\ future_get (tid t) s3 = Some (Threw x)
          /\ workers s3 !! i
             = Some {| pc := Waiting; joinable := joinable w |}.
Proof.
  intros Hreach Hlk Hpc Hthrow.
  destruct (worker_runs_delivers n e s i w t Hreach Hlk Hpc)
    as (s1 & Hstep1 & Hreach1 & Hfut1 & Hoth1 & Hw1 & Hq1 & Hs1 & He1 & Hx1).
  exists s1. rewrite Hthrow in Hfut1.
  split; [exact Hstep1|split; [exact Hfut1|split; [exact Hw1|]]].
  split; [|split; [exact Hq1|split; [exact Hs1|]]].
  { intros j wj y Hj. eapply no_worker_crashes; eauto. }
  intros t2 q Hq. rewrite Hq in Hq1.
  destruct (worker_claims_front n e s1 i _ t2 q Hreach1 Hw1 eq_refl Hq1)
    as (s2 & Hstep2 & Hreach2 & Hw2 & Hq2 & He2 & Hf2 & Hx2 & Hc2).
  destruct (worker_runs_delivers n e s2 i _ t2 Hreach2 Hw2 eq_refl)
    as (s3 & Hstep3 & Hreach3 & Hfut3 & Hoth3 & Hw3 & Hq3 & Hs3 & He3 & Hx3).
  exists s2, s3. simpl in *.
  split; [exact Hstep2|split; [exact Hstep3|split; [exact Hw2|]]].
  split; [congruence|].
  split; [rewrite Hx3, Hx2, Hx1, <- app_assoc; reflexivity|].
  split; [rewrite Hfut3, He2; reflexivity|].
  split; [|exact Hw3].
  rewrite Hoth3.
  - unfold future_get in *. rewrite Hf2. exact Hfut1.
  - (* the two tasks have different identities *)
    pose proof (inv_reachable _ _ _ Hreach1) as Hinv1.
    assert (Hnd : NoDup (accepted s1)).
    { rewrite (inv_ids _ _ Hinv1). apply NoDup_seq. }
    rewrite (inv_fifo _ _ Hinv1), Hq1 in Hnd. simpl in Hnd.
    apply NoDup_app in Hnd as (_ & Hdisj & _).
    assert (Hin : tid t ∈ claimed s1).
    { apply (inv_executed _ _ Hinv1). rewrite Hx1.
      apply elem_of_app. right. apply list_elem_of_singleton. reflexivity. }
    intros Heq. apply (Hdisj _ Hin). rewrite Heq. left.
Qed.

(** The constructor starts exactly as many workers as it is asked to, and
    the number never changes. *)
Lemma thread_count_constant n e s :
  reachable n e s -> GetThreadCount s = n.
Proof.
  intros Hreach. apply (inv_count _ _ (inv_reachable _ _ _ Hreach)).
Qed.

(** Once the destructor has returned nothing moves any more. *)
Lemma destroyed_is_final n ev s :
  pool_inv n s -> dtor s = Destroyed -> step ev s = None.
Proof.
  intros Hinv Hd. pose proof (inv_dtor _ _ Hinv) as Hdi.
  unfold dtor_inv in Hdi. rewrite Hd in Hdi.
  destruct Hdi as (_ & _ & _ & _ & Hall).
  destruct ev as [f|i| | |i|i]; simpl; unfold destroyed; rewrite ?Hd;
    try reflexivity.
  - unfold worker_step. destruct (workers s !! i) as [w|] eqn:Hlk;
      [|reflexivity].
    rewrite (Hall _ _ Hlk). reflexivity.
  - unfold dtor_step. rewrite Hd. reflexivity.
  - unfold spurious_wakeup. destruct (workers s !! i) as [w|] eqn:Hlk;
      [|reflexivity].
    rewrite (Hall _ _ Hlk). reflexivity.
Qed.

(** A pool without workers: nothing is ever popped or run, the futures
    stay pending for as long as the pool exists, and are all broken when
    it is destroyed. *)
Lemma no_workers_state (e : Env) s :
  reachable 0 e s ->
  workers s = [] /\ claimed s = [] /\ executed s = []
  /\ (dtor s <> Destroyed ->
      forall id st, futures s !! id = Some st -> st = Pending)
  /\ (dtor s = Destroyed ->
      forall id, id ∈ accepted s ->
                 futures s !! id = Some (Ready broken_promise)).
Proof.
  intros Hreach.
  assert (H : pool_inv 0 s
              /\ workers s = [] /\ claimed s = [] /\ executed s = []
              /\ (dtor s <> Destroyed ->
                  forall id st, futures s !! id = Some st -> st = Pending)
              /\ (dtor s = Destroyed ->
                  forall id, id ∈ accepted s ->
                             futures s !! id = Some (Ready broken_promise)));
    [|tauto].
  revert s Hreach. apply reachable_ind.
  - split; [apply inv_init|]. simpl. repeat split; try discriminate.
  - intros ev s0 s1 (Hinv & Hw & Hc & Hx & Hf & Hb) Hstep.
    split; [eapply inv_step; eauto|].
    assert (Hnd : dtor s0 <> Destroyed).
    { intros Hd. rewrite (destroyed_is_final 0 ev s0 Hinv Hd) in Hstep.
      discriminate. }
    specialize (Hf Hnd). clear Hb.
    destruct (is_wakeup ev) eqn:Hwk.
    { destruct (wakeup_step_inv _ _ _ Hwk Hstep)
        as (k & [->|(i & w & Hlk & _)]); simpl.
      - repeat split; auto. intros Hd. contradiction.
      - rewrite Hw, lookup_nil in Hlk. discriminate. }
    destruct ev as [f|i| | |i|i]; try discriminate.
    + apply enqueue_step_inv in Hstep as [_ [[_ ->]|[_ ->]]]; simpl.
      * repeat split; auto. intros Hd. contradiction.
      * repeat split; auto; [|intros Hd; contradiction].
        intros _ id st Hlk.
        apply lookup_app_Some in Hlk as [Hlk|[_ Hlk]]; [eauto|].
        destruct (id - length (futures s0)) as [|k]; simpl in Hlk;
          [congruence|rewrite lookup_nil in Hlk; discriminate].
    + apply worker_step_inv in Hstep as (w & Hlk & _).
      rewrite Hw, lookup_nil in Hlk. discriminate.
    + simpl in Hstep. destruct (destroyed s0); [discriminate|].
      apply WaitForTasks_step_inv in Hstep as [p ->]. simpl.
      repeat split; auto. intros Hd. contradiction.
    + apply dtor_step_inv in Hstep
        as [(Hd & ->)|[(k & Hd & Hlk & ->)
                      |[(k & w & Hd & Hlk & _)
                       |[(k & w & Hd & Hlk & _)|(Hd & ->)]]]];
        simpl; try (rewrite Hw, lookup_nil in Hlk; discriminate).
      * repeat split; auto. discriminate.
      * split; [exact Hw|split; [exact Hc|split; [exact Hx|]]].
        split; [intros H; contradiction H; reflexivity|].
        intros _ id Hid. rewrite list_lookup_imap.
        pose proof (inv_dtor _ _ Hinv) as Hdi. unfold dtor_inv in Hdi.
        rewrite Hd in Hdi. destruct Hdi as (_ & _ & _ & Hdis & _).
        assert (Hlt : id < length (futures s0)).
        { rewrite (inv_ids _ _ Hinv) in Hid. apply elem_of_seq in Hid. lia. }
        destruct (lookup_lt_is_Some_2 _ _ Hlt) as [st Hst].
        rewrite Hst, (Hf _ _ Hst). simpl. unfold abandon.
        rewrite (inv_fifo _ _ Hinv), Hc, Hdis, app_nil_r in Hid.
        simpl in Hid. apply queued_spec in Hid. rewrite Hid. reflexivity.
      * rewrite Hw. repeat split; auto. discriminate.
Qed.

(** C5, as the code has it.  The constructor neither rejects nor clamps
    its argument, and the number of workers never changes: a pool asked for
    with [num_threads] threads (and whose threads could all be started) has
    exactly that many workers for as long as it exists, hence at least one
    if it was asked for with at least one, and none if it was asked for with
    none.  A pool with no worker accepts tasks and never executes any:
    nothing is popped, no callable is called (the environment stays the
    one the pool was constructed in), no future is ready while the pool
    exists; when it is destroyed every task it accepted is destroyed with
    the queue and its future delivers [broken_promise]. *)
Theorem ThreadPool_spawns_num_threads (num_threads : nat) (e : Env) s :
  reachable num_threads e s ->
  GetThreadCount s = num_threads
  /\ (1 <= num_threads -> 1 <= GetThreadCount s)
  /\ (num_threads = 0 ->
      workers s = []
      /\ claimed s = [] /\ executed s = [] /\ env s = e
      /\ (forall f, dtor s = Alive ->
            Enqueue f s = (push_task f s, inr (length (futures s)))
            /\ reachable 0 e (push_task f s))
      /\ (dtor s <> Destroyed -> forall id, future_get id s = None)
      /\ (dtor s = Destroyed ->
          discarded s = accepted s
          /\ forall id, id ∈ accepted s ->
                        future_get id s = Some broken_promise)).
Proof.
  intros Hreach.
  pose proof (inv_reachable _ _ _ Hreach) as Hinv.
  pose proof (inv_count _ _ Hinv) as Hc.
  split; [exact Hc|split; [unfold GetThreadCount; lia|]].
  intros ->. destruct (no_workers_state e s Hreach) as (Hw & Hcl & Hx & Hf & Hb).
  split; [exact Hw|split; [exact Hcl|split; [exact Hx|split; [|split; [|split]]]]].
  - rewrite (calls_env _ _ (calls_reachable _ _ _ Hreach)).
    unfold calls. rewrite Hx. reflexivity.
  - intros f Hd.
    assert (Hs : stop s = false) by (apply (stop_iff_dtor 0); assumption).
    assert (HE : Enqueue f s = (push_task f s, inr (length (futures s)))).
    { unfold Enqueue. rewrite Hs. reflexivity. }
    split; [exact HE|].
    apply (reachable_step 0 e (EvEnqueue f) s); [exact Hreach|].
    simpl. unfold destroyed. rewrite Hd, HE. reflexivity.
  - intros Hd id. unfold future_get.
    destruct (futures s !! id) as [st|] eqn:E; [|reflexivity].
    rewrite (Hf Hd _ _ E). reflexivity.
  - intros Hd. split.
    + pose proof (inv_dtor _ _ Hinv) as Hdi. unfold dtor_inv in Hdi.
      rewrite Hd in Hdi. destruct Hdi as (_ & _ & Hq & _).
      rewrite (inv_fifo _ _ Hinv), Hcl, Hq. reflexivity.
    + intros id Hid. unfold future_get. rewrite (Hb Hd _ Hid). reflexivity.
Qed.

(** The only step that takes the client out of
    [WaitForTasks] is an iteration of its loop that finds the queue empty;
    the call changes nothing in the pool. *)
Lemma wait_returns_on_empty ev s s' :
  step ev s = Some s' ->
  waiter s <> WaitReturned -> waiter s' = WaitReturned ->
  ev = EvWait /\ waiter s = Polling /\ tasks s = []
  /\ s' = set_waiter WaitReturned s.
Proof.
  intros Hstep Hw Hw'.
  destruct (is_wakeup ev) eqn:Hwk.
  { destruct (wakeup_step_inv _ _ _ Hwk Hstep)
      as (k & [->|(j & wj & Hj & Hpj & ->)]); simpl in Hw'; congruence. }
  destruct ev as [f|i| | |i|i]; try discriminate.
  - apply enqueue_step_inv in Hstep as [_ [[_ ->]|[Hs' ->]]];
      simpl in Hw'; congruence.
  - apply worker_step_inv in Hstep
      as (wj & Hj & [(Hwt & Hs & Hq & ->)
                    |[(t & q & Hwt & Hq & ->)
                     |[(t & Hwt & ->)|(Hwt & Hs & Hq & ->)]]]);
      rewrite ?worker_runs_eq in Hw'; simpl in Hw'; congruence.
  - simpl in Hstep. destruct (destroyed s); [discriminate|].
    unfold WaitForTasks_step in Hstep.
    destruct (waiter s) eqn:Hws; try congruence;
      try (injection Hstep as <-; simpl in Hw'; discriminate).
    destruct (empty (tasks s)) eqn:He;
      injection Hstep as <-; simpl in Hw'; [|discriminate].
    apply empty_nil in He. auto.
  - apply dtor_step_inv in Hstep
      as [(Hd & ->)|[(k & Hd & Hk & ->)
                    |[(k & wk & Hd & Hk & Hj & Hwk' & ->)
                     |[(k & wk & Hd & Hk & Hj & ->)|(Hd & ->)]]]];
      simpl in Hw'; congruence.
Qed.

(** [WaitForTasks] can return while a task is still being run. *)
Lemma wait_returns_while_running n (e : Env) (f : callable Env) :
  exists s,
    reachable (S n) e s
    /\ waiter s = WaitReturned /\ tasks s = []
    /\ workers s !! 0
       = Some {| pc := Running {| tid := 0; work := f |};
                 joinable := true |}
    /\ future_get 0 s = None /\ executed s = [].
Proof.
  eexists. split.
  - exists [EvEnqueue f; EvWorker 0; EvWait; EvWait]. reflexivity.
  - simpl. auto.
Qed.

(** C6.  [WaitForTasks] leaves its loop only in an iteration that finds
    the queue empty under the lock, and the call changes nothing in the
    pool; it is no more than that: with any number of workers and any
    callable, there is a course of events after which [WaitForTasks] has
    returned while a worker still holds the task it popped, not yet run,
    its future not ready. *)
Theorem WaitForTasks_weak_barrier :
  (forall ev s s',
      step ev s = Some s' ->
      waiter s <> WaitReturned -> waiter s' = WaitReturned ->
      ev = EvWait /\ waiter s = Polling /\ tasks s = []
      /\ s' = set_waiter WaitReturned s)
  /\ (forall n (e : Env) (f : callable Env),
         exists s,
           reachable (S n) e s
           /\ waiter s = WaitReturned /\ tasks s = []
           /\ workers s !! 0
              = Some {| pc := Running {| tid := 0; work := f |};
                        joinable := true |}
           /\ future_get 0 s = None /\ executed s = []).
Proof.
  split; [apply wait_returns_on_empty|apply wait_returns_while_running].
Qed.
End PoolTheorems2.

Section PoolMore.
Import Pool.
Context {Env : Type}.
Implicit Types (s : State Env) (w : worker Env) (t : task Env).

(** X15.  No task is run twice and none is handed to two workers: the log of
    completed tasks never has a duplicate, every completed task was
    accepted, and two workers never hold the same task.  After the
    destructor of a pool with at least one worker has returned, the
    completed tasks are exactly the accepted ones. *)
Theorem each_task_runs_once n e s :
  reachable n e s ->
  NoDup (executed s)
  /\ (forall id, id ∈ executed s -> id ∈ accepted s)
  /\ (forall i j w w' t t',
        workers s !! i = Some w -> pc w = Running t ->
        workers s !! j = Some w' -> pc w' = Running t' ->
        tid t = tid t' -> i = j)
  /\ (1 <= n -> dtor s = Destroyed -> executed s ≡ₚ accepted s).
Proof.
  intros Hreach.
  pose proof (inv_reachable _ _ _ Hreach) as Hinv.
  pose proof (once_reachable _ _ _ Hreach) as Honce.
  assert (Hsub : forall id, id ∈ executed s -> id ∈ accepted s).
  { intros id Hid. rewrite (inv_fifo _ _ Hinv). apply elem_of_app. left.
    apply (inv_executed _ _ Hinv). exact Hid. }
  split; [apply (once_executed _ Honce)|split; [exact Hsub|split]].
  - apply (once_single _ Honce).
  - intros Hn Hd. apply NoDup_Permutation.
    + apply (once_executed _ Honce).
    + eapply accepted_NoDup; eauto.
    + intros id. split; [apply Hsub|].
      destruct (destroyed_state _ _ _ Hreach Hd) as (_ & _ & _ & _ & Hrest).
      destruct (Hrest Hn) as [_ Hacc]. intros Hid. apply (Hacc id Hid).
Qed.

(** A future is ready when its task has been run to the end, or when the
    pool was destroyed with the task still in the queue, which happens to
    a pool without workers only. *)
Lemma future_ready_cases n e s id r :
  reachable n e s -> future_get id s = Some r ->
  (id ∈ executed s /\ (id, r) ∈ snd (calls e s))
  \/ (id ∈ discarded s /\ r = broken_promise /\ dtor s = Destroyed /\ n = 0).
Proof.
  intros Hreach Hget.
  pose proof (inv_reachable _ _ _ Hreach) as Hinv.
  pose proof (once_reachable _ _ _ Hreach) as Honce.
  assert (Hf : futures s !! id = Some (Ready r)).
  { unfold future_get in Hget.
    destruct (futures s !! id) as [[|r']|]; congruence. }
  destruct (once_ready _ Honce _ _ Hf) as [Hx|[Hdis ->]].
  - left. split; [exact Hx|].
    destruct (calls_outcome n e s id Hreach Hx) as (f & r' & _ & Hin & Hg).
    congruence.
  - right. split; [exact Hdis|split; [reflexivity|]].
    pose proof (inv_dtor _ _ Hinv) as Hdi. unfold dtor_inv in Hdi.
    destruct (dtor s).
    + destruct Hdi as (_ & _ & Hd & _). rewrite Hd in Hdis. inversion Hdis.
    + destruct Hdi as (_ & _ & Hd & _). rewrite Hd in Hdis. inversion Hdis.
    + destruct Hdi as (_ & _ & _ & Hd & _). rewrite Hd in Hdis.
      inversion Hdis.
    + split; [reflexivity|]. destruct Hdi as (_ & _ & _ & Hd & _).
      destruct n as [|n]; [reflexivity|].
      rewrite Hd in Hdis by lia. inversion Hdis.
Qed.

Lemma future_step_stable n e ev s s' id r :
  reachable n e s -> step ev s = Some s' ->
  future_get id s = Some r -> future_get id s' = Some r.
Proof.
  intros Hreach Hstep Hget.
  pose proof (inv_reachable _ _ _ Hreach) as Hinv.
  pose proof (once_reachable _ _ _ Hreach) as Honce.
  assert (Hid : id ∈ executed s).
  { destruct (future_ready_cases n e s id r Hreach Hget)
      as [[? _]|(_ & _ & Hd & _)]; [assumption|].
    rewrite (destroyed_is_final n ev s Hinv Hd) in Hstep. discriminate. }
  destruct (is_wakeup ev) eqn:Hwk.
  { destruct (wakeup_step_inv _ _ _ Hwk Hstep)
      as (k & [->|(j & wj & Hj & Hpj & ->)]); exact Hget. }
  destruct ev as [f|i| | |i|i]; try discriminate.
  - apply enqueue_step_inv in Hstep as [_ [[_ ->]|[Hs ->]]]; [exact Hget|].
    unfold future_get in *; simpl.
    destruct (futures s !! id) as [st|] eqn:Hf; [|discriminate].
    rewrite (lookup_app_l_Some _ _ _ _ Hf). exact Hget.
  - apply worker_step_inv in Hstep
      as (w & Hlk & [(Hpc & Hs & Hq & ->)
                    |[(t & q & Hpc & Hq & ->)
                     |[(t & Hpc & ->)|(Hpc & Hs & Hq & ->)]]]);
      try exact Hget.
    rewrite worker_runs_eq. unfold future_get in *; simpl.
    rewrite list_lookup_insert_ne; [exact Hget|].
    intros Heq. apply (once_running _ Honce _ _ _ Hlk Hpc). congruence.
  - simpl in Hstep. destruct (destroyed s); [discriminate|].
    apply WaitForTasks_step_inv in Hstep as [p ->]. exact Hget.
  - apply dtor_step_inv in Hstep
      as [(Hd & ->)|[(k & Hd & Hlk & ->)
                    |[(k & w & Hd & Hlk & Hj & Hpc & ->)
                     |[(k & w & Hd & Hlk & Hj & ->)|(Hd & ->)]]]];
      try exact Hget.
    unfold future_get in *; simpl. rewrite list_lookup_imap.
    destruct (futures s !! id) as [[|r']|]; try discriminate.
    simpl. rewrite abandon_ready. exact Hget.
Qed.

(** X16.  A future delivers nothing before its task has run to the end, unless
    the pool is destroyed with the task still queued (a pool without
    workers), in which case it delivers [broken_promise]; in the first case
    what it delivers is the outcome of the call of the callable that was
    submitted.  And what it delivers it delivers for good: whatever happens
    to the pool afterwards, [get] gives the same outcome. *)
Theorem future_outcome_is_final n e s id r :
  reachable n e s -> future_get id s = Some r ->
  ((id ∈ executed s /\ (id, r) ∈ snd (calls e s))
   \/ (id ∈ discarded s /\ r = broken_promise /\ dtor s = Destroyed
       /\ n = 0))
  /\ forall sched s', run sched s = Some s' -> future_get id s' = Some r.
Proof.
  intros Hreach Hget. split.
  - apply (future_ready_cases n e s id r Hreach Hget).
  - intros sched. revert s Hreach Hget.
    induction sched as [|ev sched IH]; intros s Hreach Hget s'; simpl.
    + intros [= <-]. exact Hget.
    + destruct (step ev s) as [s1|] eqn:E; [|discriminate]. intros Hrun.
      apply (IH s1); [eapply reachable_step; eauto| |exact Hrun].
      eapply future_step_stable; eauto.
Qed.

(** X17.  [GetThreadCount()] is the constructor's argument, for as long as the
    pool exists and whatever is done with it. *)
Theorem GetThreadCount_is_constant n e s :
  reachable n e s ->
  GetThreadCount s = n
  /\ forall sched s', run sched s = Some s' ->
                      GetThreadCount s' = GetThreadCount s.
Proof.
  intros Hreach.
  pose proof (inv_count _ _ (inv_reachable _ _ _ Hreach)) as Hc.
  split; [exact Hc|]. intros sched s' Hrun. unfold GetThreadCount.
  rewrite Hc. apply (inv_count n).
  apply (inv_reachable n e). eapply reachable_run; eauto.
Qed.

(** X18.  As long as the destructor has not been entered, [Enqueue] succeeds: it
    returns a future that no earlier call returned, not ready yet, puts the
    task at the back of the queue and leaves the rest of the pool alone. *)
Theorem Enqueue_accepts_while_alive n e s (f : callable Env) :
  reachable n e s -> dtor s = Alive ->
  exists id s',
    Enqueue f s = (s', inr id)
    /\ (id ∉ accepted s)
    /\ accepted s' = accepted s ++ [id]
    /\ tasks s' = tasks s ++ [{| tid := id; work := f |}]
    /\ future_get id s' = None
    /\ (forall id', id' <> id -> future_get id' s' = future_get id' s)
    /\ workers s' = workers s /\ stop s' = false /\ env s' = env s.
Proof.
  intros Hreach Hd.
  pose proof (inv_reachable _ _ _ Hreach) as Hinv.
  assert (Hs : stop s = false) by (apply (stop_iff_dtor n); assumption).
  exists (length (futures s)), (push_task f s).
  destruct (Enqueue_appends s f Hs) as (HE & Hq & Ha & Hf).
  split; [exact HE|split; [|split; [exact Ha|split; [exact Hq|]]]].
  - rewrite (inv_ids _ _ Hinv). intros Hin. apply elem_of_seq in Hin. lia.
  - split; [exact Hf|split; [|simpl; auto]].
    intros id' Hne. unfold future_get; simpl.
    destruct (decide (id' < length (futures s))) as [Hlt|Hge].
    + rewrite lookup_app_l by exact Hlt. reflexivity.
    + rewrite lookup_app_r by lia.
      rewrite (proj2 (lookup_ge_None (futures s) id')) by lia.
      destruct (id' - length (futures s)) as [|k] eqn:Hk; [lia|].
      destruct k; reflexivity.
Qed.


End PoolMore.

(* ===================================================================== *)
(** ** The process-wide pool *)
(* ===================================================================== *)

Section GlobalPoolTheorems.
Import Pool GlobalPool.
Context {Env : Type}.
Implicit Types (g : Process Env) (p : State Env).

Lemma fresh_pool_reachable n (e : Env) : reachable n e (ThreadPool n e).
Proof. exists []. reflexivity. Qed.

Lemma process_ok_Initialize n g :
  process_ok g -> process_ok (InitializeThreadPool n g).
Proof.
  intros Hok. unfold InitializeThreadPool.
  destruct (g_thread_pool g) eqn:Hg; [exact Hok|].
  intros p [= <-]. exists n, (world g).
  split; [apply fresh_pool_reachable|reflexivity].
Qed.

Lemma process_ok_Get g : process_ok g -> process_ok (fst (GetThreadPool g)).
Proof.
  intros Hok. unfold GetThreadPool.
  destruct (g_thread_pool g) eqn:Hg; [exact Hok|].
  intros p [= <-]. exists 3, (world g).
  split; [apply fresh_pool_reachable|reflexivity].
Qed.

Lemma step_keeps_dtor (ev : event Env) p p' :
  is_dtor ev = false -> step ev p = Some p' -> dtor p' = dtor p.
Proof.
  intros Hev Hstep.
  destruct (is_wakeup ev) eqn:Hwk.
  { destruct (wakeup_step_inv _ _ _ Hwk Hstep)
      as (k & [->|(j & wj & Hj & Hpj & ->)]); reflexivity. }
  destruct ev as [f|i| | |i|i]; try discriminate.
  - apply enqueue_step_inv in Hstep as [_ [[_ ->]|[_ ->]]]; reflexivity.
  - apply worker_step_inv in Hstep
      as (w & Hlk & [(_ & _ & _ & ->)
                    |[(t & q & _ & _ & ->)
                     |[(t & _ & ->)|(_ & _ & _ & ->)]]]);
      rewrite ?worker_runs_eq; reflexivity.
  - simpl in Hstep. destruct (destroyed p); [discriminate|].
    apply WaitForTasks_step_inv in Hstep as [x ->]. reflexivity.
Qed.

Lemma run_keeps_dtor (sched : list (event Env)) p p' :
  existsb is_dtor sched = false -> run sched p = Some p' ->
  dtor p' = dtor p.
Proof.
  revert p. induction sched as [|ev sched IH]; intros p; simpl.
  - intros _ [= <-]. reflexivity.
  - intros Hex. apply orb_false_elim in Hex as [Hev Hrest].
    destruct (step ev p) as [p1|] eqn:E; [|discriminate]. intros Hrun.
    rewrite (IH _ Hrest Hrun). eapply step_keeps_dtor; eauto.
Qed.

Lemma process_ok_use sched g g' :
  process_ok g -> use_pool sched g = Some g' -> process_ok g'.
Proof.
  intros Hok. unfold use_pool.
  destruct (g_thread_pool g) as [p|] eqn:Hg; [|discriminate].
  destruct (existsb is_dtor sched) eqn:Hex; [discriminate|].
  destruct (run sched p) as [p'|] eqn:Hrun; [|discriminate].
  intros [= <-] q [= <-].
  destruct (Hok p Hg) as (n & e & Hreach & Hd).
  exists n, e. split; [eapply reachable_run; eauto|].
  rewrite (run_keeps_dtor _ _ _ Hex Hrun). exact Hd.
Qed.

Lemma process_ok_Shutdown sched g g' :
  ShutdownThreadPool sched g = Some g' -> process_ok g -> process_ok g'.
Proof.
  unfold ShutdownThreadPool. intros H Hok.
  destruct (g_thread_pool g) as [p|] eqn:Hg; [|congruence].
  destruct (run (EvDtor :: sched) p) as [p'|]; [|discriminate].
  destruct (destroyed p'); [|discriminate].
  injection H as <-. intros q; discriminate.
Qed.

(** Whatever the process was like, a call of [InitializeThreadPool] that
    follows another one changes nothing, not even the log. *)
Lemma InitializeThreadPool_again (n1 n2 : nat) g :
  InitializeThreadPool n2 (InitializeThreadPool n1 g)
  = InitializeThreadPool n1 g.
Proof.
  unfold InitializeThreadPool.
  destruct (g_thread_pool g) eqn:Hg; [rewrite Hg|]; reflexivity.
Qed.

(** C7.  Starting with no pool, [InitializeThreadPool(n1)] followed by
    [InitializeThreadPool(n2)] leaves a pool of [n1] threads: the second
    call changes nothing at all (it does not even log).  And
    [GetThreadPool] called when there is no pool makes one of 3 threads,
    stores it and returns it. *)
Theorem InitializeThreadPool_first_call_wins (n1 n2 : nat) g :
  g_thread_pool g = None ->
  InitializeThreadPool n2 (InitializeThreadPool n1 g)
    = InitializeThreadPool n1 g
  /\ (exists p,
        g_thread_pool (InitializeThreadPool n2 (InitializeThreadPool n1 g))
          = Some p
        /\ GetThreadCount p = n1)
  /\ GetThreadCount (snd (GetThreadPool (InitializeThreadPool n1 g))) = n1
  /\ GetThreadCount (snd (GetThreadPool g)) = 3
  /\ g_thread_pool (fst (GetThreadPool g)) = Some (snd (GetThreadPool g)).
Proof.
  intros Hg. unfold InitializeThreadPool, GetThreadPool. rewrite Hg. simpl.
  unfold GetThreadCount; simpl. rewrite !length_replicate.
  repeat split. eexists; split; [reflexivity|].
  simpl. apply length_replicate.
Qed.

(** C8.  [ShutdownThreadPool] can always return; when it has, there is no
    pool any more, so that a second call right after it returns at once
    and changes nothing (no error, no destructor run, no [join]); called
    with no pool it does nothing; called with a pool it joins each of the
    pool's workers exactly once. *)
Theorem ShutdownThreadPool_idempotent g :
  process_ok g ->
  (exists sched g1, ShutdownThreadPool sched g = Some g1)
  /\ forall sched g1,
      ShutdownThreadPool sched g = Some g1 ->
      g_thread_pool g1 = None
      /\ (forall sched2, ShutdownThreadPool sched2 g1 = Some g1)
      /\ (g_thread_pool g = None -> g1 = g)
      /\ (forall p, g_thread_pool g = Some p ->
            exists p', retired g1 = retired g ++ [p']
                       /\ joined p' = seq 0 (GetThreadCount p)
                       /\ joins g1 = joins g + GetThreadCount p).
Proof.
  intros Hok. split.
  - destruct (g_thread_pool g) as [p|] eqn:Hg.
    + destruct (Hok p Hg) as (n & e & Hreach & Hd).
      destruct (teardown_completes n p (inv_reachable _ _ _ Hreach) Hd)
        as (p' & Hrun & Hdes).
      exists (EvDtor :: teardown_sched 0 (wake <$> workers p)
                          (length (tasks p))).
      unfold ShutdownThreadPool. rewrite Hg, Hrun, Hdes. eauto.
    + exists [], g. unfold ShutdownThreadPool. rewrite Hg. reflexivity.
  - intros sched g1 Hsh. unfold ShutdownThreadPool in Hsh.
    destruct (g_thread_pool g) as [p|] eqn:Hg.
    + destruct (run (EvDtor :: sched) p) as [p'|] eqn:Hrun;
        [|discriminate].
      destruct (destroyed p') eqn:Hdes; [|discriminate].
      injection Hsh as <-. simpl.
      split; [reflexivity|split; [reflexivity|split; [discriminate|]]].
      intros q [= <-]. exists p'.
      destruct (Hok p Hg) as (n & e & Hreach & Hd).
      assert (Hd' : dtor p' = Destroyed).
      { unfold destroyed in Hdes. destruct (dtor p'); congruence. }
      destruct (destroyed_state n e p' (reachable_run _ _ _ _ _ Hreach Hrun)
                  Hd') as (_ & Hj & _).
      rewrite (thread_count_constant _ _ _ Hreach).
      split; [reflexivity|split; [exact Hj|]].
      unfold joins; simpl.
      rewrite map_app, concat_app, length_app. simpl.
      rewrite app_nil_r, Hj, length_seq. reflexivity.
    + injection Hsh as <-.
      split; [exact Hg|split; [|split; [reflexivity|discriminate]]].
      intros sched2. unfold ShutdownThreadPool. rewrite Hg. reflexivity.
Qed.
End GlobalPoolTheorems.

(* ===================================================================== *)
(** ** The process-wide pool: further properties *)
(* ===================================================================== *)

Section GlobalPoolMore.
Import Pool GlobalPool CpuAffinity.
Context {Env : Type}.
Implicit Types (g : Process Env) (p : State Env).

(** X23.  After [ShutdownThreadPool] the pool can be made again: the next
    [InitializeThreadPool(n)] stores a new pool of [n] workers with an empty
    queue and [stop] clear, and the next [GetThreadPool] one of 3. *)
Theorem pool_can_be_made_again sched g g1 (n : nat) :
  ShutdownThreadPool sched g = Some g1 ->
  g_thread_pool (InitializeThreadPool n g1)
    = Some (ThreadPool n (world g1))
  /\ snd (GetThreadPool (InitializeThreadPool n g1))
     = ThreadPool n (world g1)
  /\ GetThreadCount (snd (GetThreadPool (InitializeThreadPool n g1))) = n
  /\ snd (GetThreadPool g1) = ThreadPool 3 (world g1)
  /\ retired (InitializeThreadPool n g1) = retired g1.
Proof.
  intros Hsh.
  assert (Hnone : g_thread_pool g1 = None).
  { unfold ShutdownThreadPool in Hsh.
    destruct (g_thread_pool g) as [p|] eqn:Hg.
    - destruct (run (EvDtor :: sched) p) as [p'|]; [|discriminate].
      destruct (destroyed p'); [|discriminate].
      injection Hsh as <-. reflexivity.
    - injection Hsh as <-. exact Hg. }
  unfold InitializeThreadPool, GetThreadPool. rewrite Hnone. simpl.
  repeat split. unfold GetThreadCount. simpl. apply length_replicate.
Qed.


(** X25.  The pool [GetThreadPool] hands out is never one that is being, or has
    been, destroyed: [stop] is clear and [Enqueue] on it succeeds.  This
    holds in every state the process gets into by the three functions and
    by using the pool. *)
Theorem GetThreadPool_returns_usable_pool g (f : callable Env) :
  process_ok g ->
  (let p := snd (GetThreadPool g) in
   dtor p = Alive /\ stop p = false
   /\ Enqueue f p = (push_task f p, inr (length (futures p))))
  /\ (forall n, process_ok (InitializeThreadPool n g))
  /\ process_ok (fst (GetThreadPool g))
  /\ (forall sched g', use_pool sched g = Some g' -> process_ok g')
  /\ (forall sched g', ShutdownThreadPool sched g = Some g' -> process_ok g').
Proof.
  intros Hok. split; [|split; [|split; [|split]]].
  - pose proof (process_ok_Get g Hok) as Hok'.
    assert (Hst : g_thread_pool (fst (GetThreadPool g))
                  = Some (snd (GetThreadPool g))).
    { unfold GetThreadPool. destruct (g_thread_pool g) eqn:Hg; [exact Hg|].
      reflexivity. }
    destruct (Hok' _ Hst) as (n & e & Hreach & Hd). cbv zeta.
    assert (Hs : stop (snd (GetThreadPool g)) = false).
    { apply (stop_iff_dtor n); [apply (inv_reachable n e)|]; assumption. }
    split; [exact Hd|split; [exact Hs|]].
    unfold Enqueue. rewrite Hs. reflexivity.
  - intros n. apply process_ok_Initialize. exact Hok.
  - apply process_ok_Get. exact Hok.
  - intros sched g' H. eapply process_ok_use; eauto.
  - intros sched g' H. eapply process_ok_Shutdown; eauto.
Qed.
End GlobalPoolMore.

(* ===================================================================== *)
(** ** The statements at concrete inputs *)
(* ===================================================================== *)

Section Examples.
Import Pool GlobalPool CpuAffinity AlignedAllocator Scenario.

Ltac evaluate := vm_compute; reflexivity.

(** Task 1 fails, task 2 returns 42: the first future rethrows, the second
    yields 42, both callables ran, and the pool is torn down in order. *)
Example failing_then_answer :
  run torn_down_sched (ThreadPool 1 0%Z) = Some torn_down
  /\ future_get 0 torn_down = Some (Threw "task failed")
  /\ future_get 1 torn_down = Some (Returned 42%Z)
  /\ env torn_down = 2%Z
  /\ executed torn_down = [0; 1]
  /\ calls 0%Z torn_down
     = (2%Z, [(0, Threw "task failed"); (1, Returned 42%Z)])
  /\ dtor torn_down = Destroyed.
Proof. repeat (split; [evaluate|]). evaluate. Qed.

(** A pool without workers accepts a task and is destroyed with the task
    still in its queue: the task is never run, and its future delivers
    [broken_promise]. *)
Example no_worker_discards :
  run no_worker_sched (ThreadPool 0 0%Z) = Some unserved
  /\ dtor unserved = Destroyed /\ tasks unserved = []
  /\ discarded unserved = [0]
  /\ executed unserved = [] /\ env unserved = 0%Z
  /\ future_get 0 unserved = Some broken_promise.
Proof. repeat (split; [evaluate|]). evaluate. Qed.

(** Two workers block on the empty queue; the [notify_one] of an
    [Enqueue] wakes one of them, which runs the task while the other sleeps
    on; the destructor's [notify_all] then wakes the sleeper, and both
    workers return and are joined. *)
Example notify_wakes :
  run asleep_sched (ThreadPool 2 0%Z) = Some asleep
  /\ pc <$> workers asleep = [Sleeping; Sleeping]
  /\ step (EvWorker 0) asleep = None
  /\ run woken_sched (ThreadPool 2 0%Z) = Some woken
  /\ pc <$> workers woken = [Sleeping; Waiting]
  /\ future_get 0 woken = Some (Returned 42%Z)
  /\ (pc <$> workers (after [EvDtor] woken)) = [Sleeping; Waiting]
  /\ (pc <$> workers (after [EvDtor; EvDtor] woken)) = [Waiting; Waiting]
  /\ dtor (after [EvDtor; EvDtor; EvWorker 0; EvDtor; EvWorker 1; EvDtor;
                  EvDtor] woken) = Destroyed.
Proof. repeat (split; [evaluate|]). evaluate. Qed.

Lemma Enqueue_after_stop_rejected_witness :
  reachable 1 0%Z stopping /\ stop stopping = true
  /\ Enqueue answer stopping
     = (stopping, inl "Enqueue on stopped ThreadPool"%string).
Proof.
  assert (R : reachable 1 0%Z stopping) by (exists stopping_sched; evaluate).
  assert (S : stop stopping = true) by evaluate.
  split; [exact R|split; [exact S|]].
  exact (proj1 (Enqueue_after_stop_rejected 1 0%Z stopping answer R S)).
Defined.

Lemma teardown_is_graceful_witness :
  1 <= 1 /\ reachable 1 0%Z torn_down /\ dtor torn_down = Destroyed
  /\ tasks torn_down = []
  /\ env torn_down = fst (calls 0%Z torn_down)
  /\ forall id, id ∈ accepted torn_down ->
                id ∈ executed torn_down
                /\ exists f r,
                    submitted torn_down !! id = Some f
                    /\ (id, r) ∈ snd (calls 0%Z torn_down)
                    /\ future_get id torn_down = Some r.
Proof.
  assert (R : reachable 1 0%Z torn_down)
    by (exists torn_down_sched; evaluate).
  assert (D : dtor torn_down = Destroyed) by evaluate.
  split; [lia|split; [exact R|split; [exact D|]]].
  pose proof (proj2 (proj2 (proj2 (proj2
                (teardown_is_graceful 1 0%Z torn_down (le_n 1) R)))) D)
    as (_ & _ & _ & Hq & _ & He & Hacc).
  split; [exact Hq|split; [exact He|exact Hacc]].
Defined.

Lemma tasks_claimed_in_submission_order_witness :
  reachable 1 0%Z torn_down /\ 0 < 1
  /\ accepted torn_down !! 0 = Some 0
  /\ accepted torn_down !! 1 = Some 1
  /\ claimed torn_down !! 1 = Some 1
  /\ exists p, p < 1 /\ claimed torn_down !! p = Some 0.
Proof.
  assert (R : reachable 1 0%Z torn_down)
    by (exists torn_down_sched; evaluate).
  assert (A0 : accepted torn_down !! 0 = Some 0) by evaluate.
  assert (A1 : accepted torn_down !! 1 = Some 1) by evaluate.
  assert (C1 : claimed torn_down !! 1 = Some 1) by evaluate.
  split; [exact R|split; [lia|]].
  split; [exact A0|split; [exact A1|split; [exact C1|]]].
  apply (tasks_claimed_in_submission_order 1 0%Z torn_down 0 1 0 1 1 R);
    [lia|exact A0|exact A1|exact C1].
Defined.

Lemma task_exception_isolated_witness :
  reachable 1 0%Z holding
  /\ workers holding !! 0
     = Some {| pc := Running {| tid := 0; work := failing |};
               joinable := true |}
  /\ snd (failing (env holding)) = Threw "task failed"
  /\ exists s1,
      worker_step 0 holding = Some s1
      /\ future_get 0 s1 = Some (Threw "task failed")
      /\ workers s1 !! 0 = Some {| pc := Waiting; joinable := true |}.
Proof.
  assert (R : reachable 1 0%Z holding) by (exists holding_sched; evaluate).
  assert (W : workers holding !! 0
              = Some {| pc := Running {| tid := 0; work := failing |};
                        joinable := true |}) by evaluate.
  assert (T : snd (failing (env holding)) = Threw "task failed") by evaluate.
  split; [exact R|split; [exact W|split; [exact T|]]].
  destruct (task_exception_isolated 1 0%Z holding 0
              {| pc := Running {| tid := 0; work := failing |};
                 joinable := true |}
              {| tid := 0; work := failing |} "task failed"
              R W eq_refl T)
    as (s1 & H1 & H2 & H3 & _).
  exists s1. split; [exact H1|split; [exact H2|exact H3]].
Defined.

(** C5 as stated fails: asked for zero threads, the constructor returns a
    pool, and the pool has no worker. *)
Lemma ThreadPool_zero_counterexample :
  ~ (1 <= GetThreadCount (ThreadPool 0 0%Z)).
Proof. unfold GetThreadCount; simpl. lia. Qed.

Lemma ThreadPool_spawns_num_threads_witness :
  reachable 0 0%Z unserved /\ dtor unserved = Destroyed
  /\ GetThreadCount unserved = 0
  /\ executed unserved = [] /\ env unserved = 0%Z
  /\ forall id, id ∈ accepted unserved ->
                future_get id unserved = Some broken_promise.
Proof.
  assert (R : reachable 0 0%Z unserved)
    by (exists no_worker_sched; evaluate).
  assert (D : dtor unserved = Destroyed) by evaluate.
  split; [exact R|split; [exact D|]].
  destruct (ThreadPool_spawns_num_threads 0 0%Z unserved R)
    as (Hc & _ & H0).
  destruct (H0 eq_refl) as (_ & _ & Hx & He & _ & _ & Hd).
  split; [exact Hc|split; [exact Hx|split; [exact He|]]].
  exact (proj2 (Hd D)).
Defined.

Lemma WaitForTasks_weak_barrier_witness :
  step EvWait polling = Some (set_waiter WaitReturned polling)
  /\ waiter polling <> WaitReturned
  /\ tasks polling = [].
Proof.
  assert (H1 : step EvWait polling = Some (set_waiter WaitReturned polling))
    by evaluate.
  assert (H2 : waiter polling <> WaitReturned) by (vm_compute; discriminate).
  split; [exact H1|split; [exact H2|]].
  exact (proj1 (proj2 (proj2 (proj1 (@WaitForTasks_weak_barrier Z)
                                EvWait polling _ H1 H2 eq_refl)))).
Defined.

Lemma InitializeThreadPool_first_call_wins_witness :
  g_thread_pool no_pool = None
  /\ InitializeThreadPool 8 (InitializeThreadPool 4 no_pool)
     = InitializeThreadPool 4 no_pool
  /\ GetThreadCount (snd (GetThreadPool no_pool)) = 3.
Proof.
  split; [reflexivity|].
  pose proof (InitializeThreadPool_first_call_wins 4 8 no_pool eq_refl) as H.
  split; [exact (proj1 H)|exact (proj1 (proj2 (proj2 (proj2 H))))].
Defined.

Lemma ShutdownThreadPool_idempotent_witness :
  process_ok (InitializeThreadPool 2 no_pool)
  /\ exists sched g1,
      ShutdownThreadPool sched (InitializeThreadPool 2 no_pool) = Some g1.
Proof.
  assert (H : process_ok (InitializeThreadPool 2 no_pool)).
  { intros p Hp. vm_compute in Hp. injection Hp as <-. exists 2, 0%Z.
    split; [exists []; evaluate|evaluate]. }
  split; [exact H|].
  exact (proj1 (ShutdownThreadPool_idempotent _ H)).
Defined.

(** Shutting down twice, and shutting down with no pool, at a concrete
    process. *)
Example shutdown_twice :
  ShutdownThreadPool shutdown_sched (InitializeThreadPool 2 no_pool)
    = Some shut_down
  /\ g_thread_pool shut_down = None /\ joins shut_down = 2
  /\ ShutdownThreadPool [] shut_down = Some shut_down
  /\ ShutdownThreadPool [] no_pool = Some no_pool.
Proof. repeat (split; [evaluate|]). evaluate. Qed.


End Examples.

Section MoreExamples.
Import Pool GlobalPool CpuAffinity AlignedAllocator CachePrefetch Scenario.

Ltac evaluate := vm_compute; reflexivity.

Lemma AlignedAlloc_outcome_witness :
  (0 <= 6 < 64)%Z /\ (0 <= 100)%Z /\ (100 + 2 ^ 6 - 1 < 2 ^ 64)%Z
  /\ exists len,
      (100 <= len < 100 + 2 ^ 6)%Z /\ (len mod 2 ^ 6 = 0)%Z
      /\ (one_block (2 ^ 6) len <> 0%Z ->
          AlignedAlloc 64 one_block 100 (2 ^ 6)
          = Allocated (one_block (2 ^ 6) len)).
Proof.
  assert (H1 : (0 <= 6 < 64)%Z) by lia.
  assert (H2 : (0 <= 100)%Z) by lia.
  assert (H3 : (100 + 2 ^ 6 - 1 < 2 ^ 64)%Z) by (vm_compute; reflexivity).
  split; [exact H1|split; [exact H2|split; [exact H3|]]].
  destruct (AlignedAlloc_outcome 64 one_block 100 6 H1 H2 H3)
    as (len & Hb & Hm & _ & Hok).
  exists len. split; [exact Hb|split; [exact Hm|exact Hok]].
Defined.

Lemma aligned_size_always_multiple_witness :
  (0 <= 6 < 64)%Z
  /\ (aligned_size 64 SIZE_MAX (2 ^ 6) mod 2 ^ 6 = 0)%Z.
Proof.
  assert (H1 : (0 <= 6 < 64)%Z) by lia.
  split; [exact H1|].
  exact (proj2 (aligned_size_always_multiple 64 SIZE_MAX 6 H1)).
Defined.

Lemma aligned_size_idempotent_witness :
  (0 <= 6 < 64)%Z /\ (0 <= 128)%Z /\ (128 + 2 ^ 6 - 1 < 2 ^ 64)%Z
  /\ (128 mod 2 ^ 6 = 0)%Z
  /\ aligned_size 64 128 (2 ^ 6) = 128%Z.
Proof.
  assert (H1 : (0 <= 6 < 64)%Z) by lia.
  assert (H2 : (0 <= 128)%Z) by lia.
  assert (H3 : (128 + 2 ^ 6 - 1 < 2 ^ 64)%Z) by (vm_compute; reflexivity).
  assert (H4 : (128 mod 2 ^ 6 = 0)%Z) by (vm_compute; reflexivity).
  split; [exact H1|split; [exact H2|split; [exact H3|split; [exact H4|]]]].
  exact (proj1 (aligned_size_idempotent 64 128 6 H1 H2 H3) H4).
Defined.

Lemma aligned_size_alignment_zero_witness :
  (0 < 64)%Z /\ aligned_size 64 100 0 = 0%Z.
Proof.
  assert (H : (0 < 64)%Z) by lia.
  split; [exact H|exact (aligned_size_alignment_zero 64 100 H)].
Defined.

Lemma allocate_product_overflow_witness :
  (0 <= 6 < 64)%Z /\ (2 ^ 64 <= 2 ^ 61 * 8)%Z
  /\ exists len,
      (0 <= len < 2 ^ 61 * 8)%Z
      /\ allocate 64 one_block 8 (2 ^ 6) (2 ^ 61)
         = if (one_block (2 ^ 6) len =? 0)%Z then bad_alloc
           else Allocated (one_block (2 ^ 6) len).
Proof.
  assert (H1 : (0 <= 6 < 64)%Z) by lia.
  assert (H2 : (2 ^ 64 <= 2 ^ 61 * 8)%Z) by (vm_compute; discriminate).
  split; [exact H1|split; [exact H2|]].
  exact (allocate_product_overflow 64 one_block 8 6 (2 ^ 61) H1 H2).
Defined.

Lemma allocate_enough_witness :
  (0 <= 6 < 64)%Z /\ (0 <= 10 * 8)%Z /\ (10 * 8 + 2 ^ 6 - 1 < 2 ^ 64)%Z
  /\ exists len,
      (10 * 8 <= len < 10 * 8 + 2 ^ 6)%Z /\ (len mod 2 ^ 6 = 0)%Z
      /\ allocate 64 one_block 8 (2 ^ 6) 10
         = if (one_block (2 ^ 6) len =? 0)%Z then bad_alloc
           else Allocated (one_block (2 ^ 6) len).
Proof.
  assert (H1 : (0 <= 6 < 64)%Z) by lia.
  assert (H2 : (0 <= 10 * 8)%Z) by lia.
  assert (H3 : (10 * 8 + 2 ^ 6 - 1 < 2 ^ 64)%Z) by (vm_compute; reflexivity).
  split; [exact H1|split; [exact H2|split; [exact H3|]]].
  exact (allocate_enough 64 one_block 8 6 10 H1 H2 H3).
Defined.

Lemma PrefetchRange_hints_witness :
  (0 <= 4096)%Z /\ (0 <= 130)%Z /\ (4096 + 130 + 63 < 2 ^ 64)%Z
  /\ PrefetchRange 64 GnuC 4096 130
     = Some [builtin_prefetch 4096 0 3; builtin_prefetch 4160 0 3;
             builtin_prefetch 4224 0 3].
Proof.
  assert (H1 : (0 <= 4096)%Z) by lia.
  assert (H2 : (0 <= 130)%Z) by lia.
  assert (H3 : (4096 + 130 + 63 < 2 ^ 64)%Z) by (vm_compute; reflexivity).
  split; [exact H1|split; [exact H2|split; [exact H3|]]].
  exact (proj1 (proj2 (PrefetchRange_hints 64 GnuC 4096 130 H1 H2 H3))).
Defined.

Lemma PrefetchRange_covers_witness :
  (0 <= 4096)%Z /\ (0 <= 130)%Z /\ (4096 + 130 + 63 < 2 ^ 64)%Z
  /\ Msvc <> OtherCompiler
  /\ exists l,
      PrefetchRange 64 Msvc 4096 130 = Some l
      /\ forall h, h ∈ l -> (4096 <= hint_addr h < 4096 + 130)%Z.
Proof.
  assert (H1 : (0 <= 4096)%Z) by lia.
  assert (H2 : (0 <= 130)%Z) by lia.
  assert (H3 : (4096 + 130 + 63 < 2 ^ 64)%Z) by (vm_compute; reflexivity).
  assert (H4 : Msvc <> OtherCompiler) by discriminate.
  split; [exact H1|split; [exact H2|split; [exact H3|split; [exact H4|]]]].
  destruct (PrefetchRange_covers 64 Msvc 4096 130 H1 H2 H3 H4)
    as (l & Hl & Hin & _).
  exists l. split; [exact Hl|exact Hin].
Defined.




Lemma affinity_calls_touch_only_caller_witness :
  7%Z <> self (pinned true)
  /\ only_caller_changed 1 7 (pinned true)
       (ResetCoreAffinity 1024 Android (pinned true)).
Proof.
  assert (H : 7%Z <> self (pinned true)) by (vm_compute; discriminate).
  split; [exact H|].
  exact (proj2 (proj2 (affinity_calls_touch_only_caller
                         1024 Android (pinned true) 7 H))).
Defined.

Lemma ResetCoreAffinity_after_pin_witness :
  accepts (pinned true) (self (pinned true)) (reset_mask 1024 (pinned true))
    = true
  /\ affinity (ResetCoreAffinity 1024 Android
                 (SetBigCoreAffinity 1024 Android (pinned true))) 100
     = affinity (ResetCoreAffinity 1024 Android (pinned true)) 100.
Proof.
  assert (H : accepts (pinned true) (self (pinned true))
                      (reset_mask 1024 (pinned true)) = true) by reflexivity.
  split; [exact H|].
  exact (proj1 (ResetCoreAffinity_after_pin 1024 (pinned true) 100 H)).
Defined.

Lemma each_task_runs_once_witness :
  reachable 1 0%Z torn_down /\ NoDup (executed torn_down).
Proof.
  assert (R : reachable 1 0%Z torn_down)
    by (exists torn_down_sched; evaluate).
  split; [exact R|exact (proj1 (each_task_runs_once 1 0%Z torn_down R))].
Defined.

Lemma future_outcome_is_final_witness :
  reachable 1 0%Z torn_down
  /\ future_get 1 torn_down = Some (Returned 42%Z)
  /\ ((1 ∈ executed torn_down
       /\ (1, Returned 42%Z) ∈ snd (calls 0%Z torn_down))
      \/ (1 ∈ discarded torn_down /\ Returned 42%Z = broken_promise
          /\ dtor torn_down = Destroyed /\ 1 = 0)).
Proof.
  assert (R : reachable 1 0%Z torn_down)
    by (exists torn_down_sched; evaluate).
  assert (F : future_get 1 torn_down = Some (Returned 42%Z)) by evaluate.
  split; [exact R|split; [exact F|]].
  exact (proj1 (future_outcome_is_final 1 0%Z torn_down 1 _ R F)).
Defined.

Lemma GetThreadCount_is_constant_witness :
  reachable 1 0%Z holding /\ GetThreadCount holding = 1.
Proof.
  assert (R : reachable 1 0%Z holding) by (exists holding_sched; evaluate).
  split; [exact R|exact (proj1 (GetThreadCount_is_constant 1 0%Z holding R))].
Defined.

Lemma Enqueue_accepts_while_alive_witness :
  reachable 1 0%Z holding /\ dtor holding = Alive
  /\ exists id s', Enqueue answer holding = (s', inr id)
                   /\ (id ∉ accepted holding).
Proof.
  assert (R : reachable 1 0%Z holding) by (exists holding_sched; evaluate).
  assert (D : dtor holding = Alive) by evaluate.
  split; [exact R|split; [exact D|]].
  destruct (Enqueue_accepts_while_alive 1 0%Z holding answer R D)
    as (id & s' & H1 & H2 & _).
  exists id, s'. split; [exact H1|exact H2].
Defined.



Lemma pool_can_be_made_again_witness :
  ShutdownThreadPool shutdown_sched (InitializeThreadPool 2 no_pool)
    = Some shut_down
  /\ GetThreadCount (snd (GetThreadPool (InitializeThreadPool 5 shut_down)))
     = 5.
Proof.
  assert (H : ShutdownThreadPool shutdown_sched (InitializeThreadPool 2 no_pool)
              = Some shut_down) by evaluate.
  split; [exact H|].
  exact (proj1 (proj2 (proj2 (pool_can_be_made_again _ _ _ 5 H)))).
Defined.


Lemma GetThreadPool_returns_usable_pool_witness :
  process_ok busy
  /\ stop (snd (GetThreadPool busy)) = false.
Proof.
  assert (P : g_thread_pool busy = Some busy_pool) by evaluate.
  assert (K : process_ok busy).
  { intros p Hp. rewrite P in Hp. injection Hp as <-. exists 1, 0%Z.
    split; [exists [EvEnqueue failing; EvEnqueue answer]; evaluate|evaluate]. }
  split; [exact K|].
  exact (proj1 (proj2 (proj1 (GetThreadPool_returns_usable_pool
                                busy answer K)))).
Defined.

(** Shutting [busy] down runs both tasks before the call returns. *)
Example busy_shutdown_runs_both :
  ShutdownThreadPool busy_shutdown_sched busy = Some busy_shut_down
  /\ world busy_shut_down = 2%Z
  /\ g_thread_pool busy_shut_down = None
  /\ joins busy_shut_down = 1.
Proof. repeat (split; [evaluate|]). evaluate. Qed.
End MoreExamples.
